(** * Reactive LTL motion planning: a shallow embedding

    The development follows the Python sources of the planner pair:
    - [planning/localrrt.py]: the half-monitor, the potential lookup and the
      on-line local planner;
    - [planning/ltlrrg.py]: the off-line RRG planner;
    - [spaces/maps2d.py]: box and ball boundaries.

    Python dictionaries and sets are finite maps and finite sets, Python
    exceptions are values of an error monad, and mutable objects are records
    threaded through the calls.  Real numbers are exact rationals. *)

From Stdlib Require Import QArith Qabs Qminmax Lqa.
From stdpp Require Import gmap strings list fin_maps fin_sets.

Local Open Scope Z_scope.
Set Warnings "-clear-no-such-hyp".

(** ** Python values that the planners share *)

Module Py.

(** The exceptions the modelled code can raise. *)
Inductive exn : Type :=
| AssertionError
| AttributeError
| IndexError
| KeyError
| NotImplementedError
| UnboundLocalError
| ValueError.

Inductive result (A : Type) : Type :=
| Ok (a : A)
| Raise (e : exn).
Arguments Ok {A} a.
Arguments Raise {A} e.

Definition bind {A B} (m : result A) (k : A -> result B) : result B :=
  match m with
  | Ok a => k a
  | Raise e => Raise e
  end.

Definition is_ok {A} (m : result A) : Prop :=
  match m with Ok _ => True | Raise _ => False end.

(** [d[k]] on a dictionary. *)
Definition getitem `{Countable K} {V} (d : gmap K V) (k : K) : result V :=
  match d !! k with
  | Some v => Ok v
  | None => Raise KeyError
  end.

(** [l[-1]] on a list. *)
Definition last_item {A} (l : list A) : result A :=
  match last l with
  | Some a => Ok a
  | None => Raise IndexError
  end.

(** [min(l, key=key)]: the first element whose key is smallest; the keys
    are computed for every element, and an empty sequence is a
    [ValueError]. *)
Section Min.
Context {A K : Type} (ltb : K -> K -> bool) (key : A -> result K).

Fixpoint min_from (best : A) (kbest : K) (l : list A) : result A :=
  match l with
  | [] => Ok best
  | x :: l' =>
      bind (key x) (fun kx =>
        if ltb kx kbest then min_from x kx l' else min_from best kbest l')
  end.

Definition min_key (l : list A) : result A :=
  match l with
  | [] => Raise ValueError
  | x :: l' => bind (key x) (fun kx => min_from x kx l')
  end.
End Min.

End Py.

Export Py.

#[global] Instance result_bind : MBind Py.result :=
  fun A B k m => Py.bind m k.
#[global] Instance result_ret : MRet Py.result := @Py.Ok.

(** Propositions of a configuration: a set of region symbols. *)
Abbreviation Props := (gset string).

(** A potential is an integer or [float('Inf')]. *)
Inductive Potential : Type :=
| Fin (n : Z)
| Inf.

Definition pot_ltb (p q : Potential) : bool :=
  match p, q with
  | Fin a, Fin b => a <? b
  | Fin _, Inf => true
  | Inf, _ => false
  end.

Definition pot_le (p q : Potential) : Prop :=
  match p, q with
  | Fin a, Fin b => a <= b
  | _, Inf => True
  | Inf, Fin _ => False
  end.

Definition pot_is_zero (p : Potential) : bool :=
  match p with
  | Fin n => n =? 0
  | Inf => false
  end.

(** ** models: the transition system *)

Module models.

Section TS.
Context {Conf : Type} `{Countable Conf}.

(** Modelled from the spec: [models/ts.py] is not among the sources.
    Section 3 of the design: a directed graph whose vertices are
    configurations, each storing its proposition set, with a
    distinguished initial vertex; vertices are keyed by content. *)
Record TS : Type := {
  g_node : gmap Conf Props;
  g_edges : gset (Conf * Conf);
  init : gset Conf
}.

(** [conf in ts.g] *)
Definition has_node (ts : TS) (conf : Conf) : bool :=
  bool_decide (conf ∈ dom (g_node ts)).

(** [ts.g.nodes_iter()] *)
Definition nodes_iter (ts : TS) : list Conf := elements (dom (g_node ts)).

Definition empty_ts : TS :=
  {| g_node := ∅; g_edges := ∅; init := ∅ |}.

(** Modelled from the spec: [TS.addState], section 4.5 step 6. *)
Definition addState (ts : TS) (conf : Conf) (symbols : Props)
    (is_init : bool) : TS :=
  {| g_node := <[conf := symbols]> (g_node ts);
     g_edges := g_edges ts;
     init := if is_init then {[conf]} ∪ init ts else init ts |}.

(** Modelled from the spec: [TS.addStates], over the items of the
    staging dictionary [Q]. *)
Definition addStates (ts : TS) (states : list (Conf * Props)) : TS :=
  foldl (fun ts cp => addState ts cp.1 cp.2 false) ts states.

(** Modelled from the spec: [TS.addTransitions], over the staged
    edges. *)
Definition addTransitions (ts : TS) (Delta : gset (Conf * Conf)) : TS :=
  {| g_node := g_node ts;
     g_edges := g_edges ts ∪ Delta;
     init := init ts |}.
End TS.

Arguments TS Conf {_ _}.

End models.

(** ** robots: the robot model *)

Module robots.

(** Modelled from the spec: the robots package is not among the sources.
    Section 4.2 of the design lists the contracts; the planners call them
    through [self.robot].  Drawing a sample advances the generator state
    [RNG]. *)
Record Robot (Conf RNG Region : Type) : Type := {
  initConf : Conf;
  sample : RNG -> Conf * RNG;
  steer : Conf -> Conf -> option Q -> Conf;
  getSymbols : Conf -> bool -> Props;
  isSimpleSegment : Conf -> Conf -> bool;
  collision_free : list Conf -> list Region -> bool;
  cspace_dist : Conf -> Conf -> Q
}.
Arguments initConf {Conf RNG Region} r.
Arguments sample {Conf RNG Region} r _.
Arguments steer {Conf RNG Region} r _ _ _.
Arguments getSymbols {Conf RNG Region} r _ _.
Arguments isSimpleSegment {Conf RNG Region} r _ _.
Arguments collision_free {Conf RNG Region} r _ _.
Arguments cspace_dist {Conf RNG Region} r _ _.

End robots.

(** ** planning/localrrt.py *)

Module localrrt.

Section Automata.
Context {Conf BState : Type}.
Context `{Countable Conf, Countable BState}.

(** The Buchi automaton is an input of the engine; the planners use its
    [next_states] only. *)
Record Buchi : Type := {
  next_states : BState -> option Props -> list BState
}.

(** The product automaton as the local planner reads it:
    [pa.proj_ts] maps a TS state to its Buchi states, [pa.g.node] holds
    the potential of a product state and [pa.g] its successors. *)
Record Product : Type := {
  proj_ts : gmap Conf (gset BState);
  node_potential : gmap (Conf * BState) Potential;
  succ : gmap (Conf * BState) (list (Conf * BState));
  buchi : Buchi
}.

Definition potential_of (pa : Product) (s : Conf * BState)
    : result Potential :=
  getitem (node_potential pa) s.

Definition get_actual_potential (x : Conf) (B : gset BState)
    (pa : Product)   : result Potential :=
  bs ← getitem (proj_ts pa) x;
  let pa_states := (fun buchi_state => (x, buchi_state))
                     <$> elements (bs ∩ B) in
  match pa_states with
  | [] => Ok Inf
  | _ =>
      pa_state ← min_key pot_ltb (potential_of pa) pa_states;
      potential_of pa pa_state
  end.

Definition monitor (start : gset BState) (buchi : Buchi)
    (start_prop : Props) (stop_prop : option Props) : gset BState :=
  if bool_decide (Some start_prop = stop_prop) then start
  else
    foldl (fun stop buchi_state =>
             stop ∪ list_to_set (next_states buchi buchi_state stop_prop))
          ∅ (elements start).

(** The half-monitor as section 4.6 words it, for comparison with
    [monitor]. *)
Definition monitor_spec (B_prev : gset BState) (buchi : Buchi)
    (sigma_prev sigma_next : Props) : gset BState :=
  if decide (sigma_prev = sigma_next) then B_prev
  else set_bind (fun q => list_to_set
                            (next_states buchi q (Some sigma_next)))
                B_prev.

(** The Buchi sets along a trajectory, as [LocalPlanner.update] extends
    them: one [monitor] step per configuration. *)
Fixpoint monitor_along (B : gset BState) (buchi : Buchi)
    (prev_prop : Props) (props : list Props) : gset BState :=
  match props with
  | [] => B
  | prop :: rest =>
      monitor_along (monitor B buchi prev_prop (Some prop)) buchi prop rest
  end.
End Automata.

Arguments Buchi : clear implicits.
Arguments Product Conf BState {_ _ _ _}.

Section Planner.
Context {Conf BState RNG Region : Type}.
Context `{Countable Conf, Countable BState, EqDecision Region}.

(** [Request = namedtuple('Request', ('region', 'name', 'priority'))] *)
Record Request : Type := {
  region : Region;
  name : string;
  priority : Z
}.

#[global] Instance Request_eq_dec : EqDecision Request.
Proof. solve_decision. Defined.

(** The fields of [LocalPlanner] that the modelled methods read or
    write. *)
Record LocalPlanner : Type := {
  pa : Product Conf BState;
  ts : models.TS Conf;
  robot : robots.Robot Conf RNG Region;
  local_plan : option (list Conf);
  tracking_req : option Request;
  requests : list Request;
  obstacles : list Region;
  buchi_states : list (gset BState);
  potential : list Potential;
  global_target_state : Conf
}.

Definition set_tracking_req (self : LocalPlanner)
    (req : option Request) : LocalPlanner :=
  {| pa := pa self; ts := ts self; robot := robot self;
     local_plan := local_plan self; tracking_req := req;
     requests := requests self; obstacles := obstacles self;
     buchi_states := buchi_states self; potential := potential self;
     global_target_state := global_target_state self |}.

(** Truth value of a list, and of [None] or a list. *)
Definition truthy {A} (l : list A) : bool :=
  match l with [] => false | _ :: _ => true end.

Definition plan_truthy (p : option (list Conf)) : bool :=
  match p with Some (_ :: _) => true | _ => false end.

Definition plan_items (p : option (list Conf)) : list Conf :=
  match p with Some l => l | None => [] end.

Definition local_plan_hit (self : LocalPlanner) : result bool :=
  if negb (plan_truthy (local_plan self)) then Ok false
  else
    let plan := plan_items (local_plan self) in
    last_conf ← last_item plan;
    if negb (models.has_node (ts self) last_conf)
    then Raise AssertionError
    else
      match tracking_req self with
      | None => Raise AttributeError
      | Some req =>
          let target := name req in
          Ok (existsb
                (fun conf =>
                   bool_decide
                     (target ∈ robots.getSymbols (robot self) conf true))
                plan)
      end.

(** Lines 194-201 of [check_local_plan]: the collision check of the
    pending plan. *)
Definition check_plan_collision (self : LocalPlanner) : result bool :=
  if negb (plan_truthy (local_plan self)) then Ok false
  else
    let plan := plan_items (local_plan self) in
    last_conf ← last_item plan;
    if negb (models.has_node (ts self) last_conf)
    then Raise AssertionError
    else Ok (robots.collision_free (robot self) plan (obstacles self)).

(** The method returns its value together with the planner, whose
    [tracking_req] it may have set or reset; the planner is returned
    also when the call raises.  [highest_priority_req] is bound in the
    first branch only. *)
Definition check_local_plan (self : LocalPlanner)
    : result bool * LocalPlanner :=
  let requests := requests self in
  if truthy requests then
    match min_key Z.ltb (fun req => Ok (priority req)) requests with
    | Raise e => (Raise e, self)
    | Ok highest_priority_req =>
        let self :=
          match tracking_req self with
          | None => set_tracking_req self (Some highest_priority_req)
          | Some tr =>
              if priority tr >? priority highest_priority_req
              then set_tracking_req self (Some highest_priority_req)
              else self
          end in
        (local_plan_hit self, self)
    end
  else
    (* there is a target, but it disappeared *)
    match tracking_req self with
    | Some tr =>
        if bool_decide (tr ∉ requests) then
          if truthy requests then (Raise UnboundLocalError, self)
          else
            let self := set_tracking_req self None in
            (check_plan_collision self, self)
        else (check_plan_collision self, self)
    | None => (check_plan_collision self, self)
    end.

(** [self.pa.g.out_edges_iter(nbunch)]: the edges leaving the nodes of
    [nbunch] that are in the graph. *)
Definition out_edges_iter (pa : Product Conf BState)
    (nbunch : list (Conf * BState))
    : list ((Conf * BState) * (Conf * BState)) :=
  nbunch ≫= (fun u =>
    match succ pa !! u with
    | Some vs => (fun v => (u, v)) <$> vs
    | None => []
    end).

(** The unpacking [_, pa_next_states = zip(...)] of the transposed edge
    sequence: it needs the two tuples that [zip] yields when there is at
    least one edge; the second one, a tuple, holds the targets. *)
Definition unzip_targets (edges : list ((Conf * BState) * (Conf * BState)))
    : result (list (Conf * BState)) :=
  match edges with
  | [] => Raise ValueError
  | _ :: _ => Ok (edges.*2)
  end.

Definition min_potential_global_state (self : LocalPlanner)
    (state : Conf) : result Conf :=
  B ← last_item (buchi_states self);
  let pa_states := (fun buchi_state => (state, buchi_state))
                     <$> elements B in
  pa_next_states ← unzip_targets (out_edges_iter (pa self) pa_states);
  opt_pa_next_state ←
    min_key pot_ltb (potential_of (pa self)) pa_next_states;
  current ← last_item (potential self);
  zero_tie ←
    (if pot_is_zero current
     then p ← potential_of (pa self) opt_pa_next_state;
          Ok (pot_is_zero p)
     else Ok false);
  if (zero_tie : bool) then
    (* [pa_next_states.remove(...)]: a tuple has no [remove] *)
    Raise AttributeError
  else Ok (opt_pa_next_state.1).
End Planner.

Arguments Request : clear implicits.
Arguments LocalPlanner Conf BState RNG Region {_ _ _ _}.

End localrrt.

(** ** models: the incremental product automaton, as the RRG planner uses it *)

Module product.

(** Modelled from the spec: [models/product.py] is not among the sources.
    Section 4.4 of the design gives the public operations of the
    incremental product automaton; [PA] is the state of the checker object
    and every operation is a function of it.  [buchi_has_edges] is the
    condition of the assertion that ends an RRG iteration: every product
    edge projects to an edge of the Buchi automaton. *)
Class IncrementalProduct (Conf BState PA : Type)
    `{Countable Conf, Countable BState} := {
  addInitialState : PA -> Conf -> Props -> PA;
  check : PA -> models.TS Conf -> Conf -> Conf -> Props -> bool ->
          gset ((Conf * BState) * (Conf * BState));
  update : PA -> gset ((Conf * BState) * (Conf * BState)) -> PA;
  foundPolicy : PA -> bool;
  buchi_has_edges : PA -> bool
}.

Section Soundness.
Context {Conf BState PA : Type} `{Countable Conf, Countable BState}.
Context `{!IncrementalProduct Conf BState PA}.

(** An edge that [check] proposes in checker state [pa], for some
    prospective TS edge. *)
Definition proposed (pa : PA) (e : (Conf * BState) * (Conf * BState))
    : Prop :=
  exists ts u v props forward, e ∈ check pa ts u v props forward.

(** Invariant 2 of the design as a condition [Inv] on checker states:
    updating with proposed edges keeps it, and it makes the assertion of
    [RRGPlanner.iterate] hold. *)
Record sound_checker (Inv : PA -> Prop) : Prop := {
  update_keeps : forall pa E,
    Inv pa -> (forall e, e ∈ E -> proposed pa e) -> Inv (update pa E);
  assertion_holds : forall pa, Inv pa -> buchi_has_edges pa = true
}.
End Soundness.

End product.

(** ** planning/ltlrrg.py *)

Definition Qlt_bool (x y : Q) : bool := negb (Qle_bool y x).

Module ltlrrg.

Section Planner.
Context {Conf BState PA RNG Region : Type}.
Context `{Countable Conf, Countable BState}.
Context `{!product.IncrementalProduct Conf BState PA}.

Abbreviation PAEdge := ((Conf * BState) * (Conf * BState))%type.

(** The planner object, with the state of the random generator that
    [robot.sample] draws from.  [eta] is the two-element list
    [[eta_lo, eta_hi]]. *)
Record RRGPlanner : Type := {
  maxIterations : Z;
  iteration : Z;
  robot : robots.Robot Conf RNG Region;
  ts : models.TS Conf;
  checker : PA;
  eta : Q * Q;
  random_state : RNG
}.

Definition set_iteration (self : RRGPlanner) (i : Z) : RRGPlanner :=
  {| maxIterations := maxIterations self; iteration := i;
     robot := robot self; ts := ts self; checker := checker self;
     eta := eta self; random_state := random_state self |}.

Definition set_eta (self : RRGPlanner) (e : Q * Q) : RRGPlanner :=
  {| maxIterations := maxIterations self; iteration := iteration self;
     robot := robot self; ts := ts self; checker := checker self;
     eta := e; random_state := random_state self |}.

Definition set_random_state (self : RRGPlanner) (g : RNG) : RRGPlanner :=
  {| maxIterations := maxIterations self; iteration := iteration self;
     robot := robot self; ts := ts self; checker := checker self;
     eta := eta self; random_state := g |}.

Definition set_graphs (self : RRGPlanner) (t : models.TS Conf) (c : PA)
    : RRGPlanner :=
  {| maxIterations := maxIterations self; iteration := iteration self;
     robot := robot self; ts := t; checker := c;
     eta := eta self; random_state := random_state self |}.

(** [RRGPlanner.__init__] *)
Definition init (robot : robots.Robot Conf RNG Region) (checker : PA)
    (iterations : Z) (g : RNG) : RRGPlanner :=
  let symbols := robots.getSymbols robot (robots.initConf robot) false in
  {| maxIterations := iterations;
     iteration := 0;
     robot := robot;
     ts := models.addState models.empty_ts (robots.initConf robot)
             symbols true;
     checker := product.addInitialState checker (robots.initConf robot)
                  symbols;
     eta := (1 # 2, 1)%Q;
     random_state := g |}.

Definition metric (self : RRGPlanner) : Conf -> Conf -> Q :=
  robots.cspace_dist (robot self).

Definition nearest (self : RRGPlanner) (p : Conf) : result Conf :=
  min_key Qlt_bool (fun x => Ok (metric self p x))
          (models.nodes_iter (ts self)).

Definition far (self : RRGPlanner) (p : Conf) : list Conf :=
  let ret := filter (fun v => Qlt_bool (metric self v p) (eta self).2 = true)
                    (models.nodes_iter (ts self)) in
  if existsb (fun v => Qle_bool (metric self v p) (eta self).1) ret
  then []
  else ret.

Definition near (self : RRGPlanner) (p : Conf) : list Conf :=
  filter (fun v => Qlt_bool 0 (metric self v p)
                   && Qlt_bool (metric self v p) (eta self).2 = true)
         (models.nodes_iter (ts self)).

(** The staging buffers of one phase: [Q], [Delta] and [E]. *)
Record Staged : Type := {
  staged_Q : gmap Conf Props;
  staged_Delta : gset (Conf * Conf);
  staged_E : gset PAEdge
}.

Definition no_staged : Staged :=
  {| staged_Q := ∅; staged_Delta := ∅; staged_E := ∅ |}.

(** Body of the forward loop, for one [state] of [far(newConf)]. *)
Definition forward_step (self : RRGPlanner) (newConf : Conf)
    (newProp : Props) (st : Staged) (state : Conf) : Staged :=
  if robots.isSimpleSegment (robot self) state newConf then
    let Ep := product.check (checker self) (ts self) state newConf
                newProp true in
    if bool_decide (Ep <> ∅) then
      {| staged_Q := if bool_decide (newConf ∈ dom (staged_Q st))
                     then staged_Q st
                     else <[newConf := newProp]> (staged_Q st);
         staged_Delta := staged_Delta st ∪ {[(state, newConf)]};
         staged_E := staged_E st ∪ Ep |}
    else st
  else st.

(** Body of the backward loop, for one new state and one [state] of
    [near(newState)]. *)
Definition backward_step (self : RRGPlanner) (newState : Conf)
    (acc : result Staged) (state : Conf) : result Staged :=
  st ← acc;
  let steered := robots.steer (robot self) newState state
                   (Some (1 # 100000000)%Q) in
  if bool_decide (state = steered)
     && robots.isSimpleSegment (robot self) newState state then
    prop ← getitem (models.g_node (ts self)) state;
    let Ep := product.check (checker self) (ts self) newState state
                prop false in
    if bool_decide (Ep <> ∅) then
      Ok {| staged_Q := staged_Q st;
            staged_Delta := staged_Delta st ∪ {[(newState, state)]};
            staged_E := staged_E st ∪ Ep |}
    else Ok st
  else Ok st.

Definition backward (self : RRGPlanner) (newStates : list Conf)
    : result Staged :=
  foldl (fun acc newState =>
           foldl (backward_step self newState) acc (near self newState))
        (Ok no_staged) newStates.

(** [RRGPlanner.iterate]: the value or the exception, and the planner as
    the call leaves it. *)
Definition iterate (self : RRGPlanner) : result bool * RRGPlanner :=
  if negb (product.foundPolicy (checker self)) then
    (* First phase - Forward *)
    let '(randomConf, g) := robots.sample (robot self)
                              (random_state self) in
    let self := set_random_state self g in
    match nearest self randomConf with
    | Raise e => (Raise e, self)
    | Ok nearestState =>
        let newConf := robots.steer (robot self) nearestState randomConf
                         None in
        let newProp := robots.getSymbols (robot self) newConf false in
        let fwd := foldl (forward_step self newConf newProp) no_staged
                         (far self newConf) in
        let self :=
          set_graphs self
            (models.addTransitions
               (models.addStates (ts self) (map_to_list (staged_Q fwd)))
               (staged_Delta fwd))
            (product.update (checker self) (staged_E fwd)) in
        (* Second phase - Backward *)
        match backward self (map_to_list (staged_Q fwd)).*1 with
        | Raise e => (Raise e, self)
        | Ok bwd =>
            let self :=
              set_graphs self
                (models.addTransitions (ts self) (staged_Delta bwd))
                (product.update (checker self) (staged_E bwd)) in
            if product.buchi_has_edges (checker self)
            then (Ok (product.foundPolicy (checker self)), self)
            else (Raise AssertionError, self)
        end
    end
  else (Ok true, self).

(** The loop of [solve] over the remaining values of [self.iteration]. *)
Fixpoint solve_loop (its : list Z) (self : RRGPlanner)
    : result bool * RRGPlanner :=
  match its with
  | [] => (Ok false, self)
  | i :: rest =>
      match iterate (set_iteration self i) with
      | (Ok true, self') => (Ok true, self')
      | (Ok false, self') => solve_loop rest self'
      | (Raise e, self') => (Raise e, self')
      end
  end.

(** [RRGPlanner.solve]; [seqZ 1 n] is [range(1, n + 1)]. *)
Definition solve (self : RRGPlanner) : result bool * RRGPlanner :=
  solve_loop (seqZ 1 (maxIterations self)) self.

(** The planners that a run goes through: any sequence of [iterate]
    calls, with the loop counter set in between. *)
Inductive reachable (start : RRGPlanner) : RRGPlanner -> Prop :=
| reachable_start : reachable start start
| reachable_iterate self r self' :
    reachable start self -> iterate self = (r, self') ->
    reachable start self'
| reachable_counter self i :
    reachable start self -> reachable start (set_iteration self i).

(** [failed_run i self n self']: from [self], the [n] iterations
    numbered [i], [i+1], ... each returned [False], and left [self']. *)
Inductive failed_run : Z -> RRGPlanner -> nat -> RRGPlanner -> Prop :=
| failed_run_nil i self : failed_run i self 0 self
| failed_run_cons i self self1 n self' :
    iterate (set_iteration self i) = (Ok false, self1) ->
    failed_run (i + 1) self1 n self' ->
    failed_run i self (S n) self'.

(** Vertex spacing: distinct vertices are at least [eta_lo] apart. *)
Definition dispersed (self : RRGPlanner) : Prop :=
  forall u v, u ∈ dom (models.g_node (ts self)) ->
              v ∈ dom (models.g_node (ts self)) ->
              u <> v -> ((eta self).1 <= metric self u v)%Q.

(** Conditions on the edges of the transition system: their end points are
    vertices, they are simple segments, and they are shorter than
    [eta_hi]. *)
Definition edges_closed (self : RRGPlanner) : Prop :=
  forall u v, (u, v) ∈ models.g_edges (ts self) ->
              u ∈ dom (models.g_node (ts self))
              /\ v ∈ dom (models.g_node (ts self)).

Definition edges_simple (self : RRGPlanner) : Prop :=
  forall u v, (u, v) ∈ models.g_edges (ts self) ->
              robots.isSimpleSegment (robot self) u v = true.

Definition edges_short (self : RRGPlanner) : Prop :=
  forall u v, (u, v) ∈ models.g_edges (ts self) ->
              (metric self u v < (eta self).2)%Q.
End Planner.

Arguments RRGPlanner Conf PA RNG Region {_ _}.

End ltlrrg.

(** ** spaces/base.py: the workspace *)

Module base.

(** What [Workspace] asks of its regions and positions: the [symbols] of
    a region, its [intersects(src, dest=None)] test, and the two truth
    values that Python takes implicitly.  [geometry] is what [==] and
    [hash] of a region look at (the ranges of a box, the center and radius
    of a ball, the polygon of a polygon region); the symbols take no part
    in it, and [==] is taken to answer a truth value.  [truthy] is the
    truth value of a position, as in [if not position]. *)
Class RegionOps (Region Position Geometry : Type) := {
  symbols : Region -> Props;
  region_intersects : Region -> Position -> option Position -> bool;
  geometry : Region -> Geometry;
  truthy : Position -> bool
}.

Section Workspace.
Context {Region Position Geometry : Type} `{Countable Geometry}.
Context `{!RegionOps Region Position Geometry}.

(** A Python [set] of regions: one region for each geometry, found again
    through its geometry. *)
#[local] Abbreviation RegionSet := (gmap Geometry Region).

(** [set.add]: a region equal to one in the set is not stored. *)
Definition set_add (s : RegionSet) (region : Region) : RegionSet :=
  match s !! geometry region with
  | Some _ => s
  | None => <[geometry region := region]> s
  end.

(** [set.discard] *)
Definition set_discard (s : RegionSet) (region : Region) : RegionSet :=
  delete (geometry region) s.

(** [set(regions)] *)
Definition set_of_list (regions : list Region) : RegionSet :=
  foldl set_add ∅ regions.

(** Iteration over a set of regions. *)
Definition set_iter (s : RegionSet) : list Region := (map_to_list s).*2.

(** The fields of [Workspace] that hold regions and symbols. *)
Record Workspace : Type := {
  globalRegions : RegionSet;
  localRegions : list Region;
  globalSymbols : Props;
  localSymbols : Props
}.

(** [set(itertools.chain.from_iterable(region.symbols for region in ...))] *)
Definition chain_symbols (regions : list Region) : Props :=
  ⋃ (symbols <$> regions).

(** [Workspace.__init__]; a region argument is [None] or a list. *)
Definition init (globalRegions localRegions : option (list Region))
    : Workspace :=
  let globals : RegionSet :=
    match globalRegions with
    | Some (r :: rs) => set_of_list (r :: rs)
    | _ => ∅
    end in
  let locals :=
    match localRegions with
    | Some (r :: rs) => r :: rs
    | _ => []
    end in
  {| globalRegions := globals;
     localRegions := locals;
     globalSymbols := chain_symbols (set_iter globals);
     localSymbols := chain_symbols locals |}.

(** [Workspace.getSymbols(position=None, local=False)] *)
Definition getSymbols (ws : Workspace) (position : option Position)
    (local : bool) : Props :=
  let not_position :=
    match position with
    | None => true
    | Some p => negb (truthy p)
    end in
  match position with
  | Some position =>
      if not_position then
        if local then localSymbols ws else globalSymbols ws
      else
        let regions := if local then localRegions ws
                       else set_iter (globalRegions ws) in
        chain_symbols
          (filter (fun region => region_intersects region position None = true)
                  regions)
  | None => if local then localSymbols ws else globalSymbols ws
  end.

(** [Workspace.addRegion(region, local=False)], for a [Region] argument. *)
Definition addRegion (ws : Workspace) (region : Region) (local : bool)
    : Workspace :=
  if local then
    {| globalRegions := globalRegions ws;
       localRegions := localRegions ws ++ [region];
       globalSymbols := globalSymbols ws;
       localSymbols := localSymbols ws ∪ symbols region |}
  else
    {| globalRegions := set_add (globalRegions ws) region;
       localRegions := localRegions ws;
       globalSymbols := globalSymbols ws ∪ symbols region;
       localSymbols := localSymbols ws |}.

(** [list.remove(x)]: drops the first element equal to [x]; a list
    without one is a [ValueError]. *)
Fixpoint list_remove (x : Region) (l : list Region) : result (list Region) :=
  match l with
  | [] => Raise ValueError
  | y :: l' =>
      if decide (geometry y = geometry x) then Ok l'
      else l'' ← list_remove x l'; Ok (y :: l'')
  end.

(** [Workspace.removeRegion(region, local=False, update=False)], for a
    [Region] argument. *)
Definition removeRegion (ws : Workspace) (region : Region)
    (local update : bool) : result Workspace :=
  if local then
    locals ← list_remove region (localRegions ws);
    Ok {| globalRegions := globalRegions ws;
          localRegions := locals;
          globalSymbols := globalSymbols ws;
          localSymbols := if update then chain_symbols locals
                          else localSymbols ws |}
  else
    let globals := set_discard (globalRegions ws) region in
    Ok {| globalRegions := globals;
          localRegions := localRegions ws;
          globalSymbols := if update then chain_symbols (set_iter globals)
                           else globalSymbols ws;
          localSymbols := localSymbols ws |}.


(** The workspaces that the constructor and the two update methods
    produce. *)
Inductive built : Workspace -> Prop :=
| built_init gs ls : built (init gs ls)
| built_add ws region local :
    built ws -> built (addRegion ws region local)
| built_remove ws region local update ws' :
    built ws -> removeRegion ws region local update = Ok ws' -> built ws'.

End Workspace.

Arguments Workspace Region Geometry {_ _}.

End base.

(** ** spaces/maps2d.py *)

Module maps2d.

Local Open Scope Q_scope.

(** A point is read through its coordinate array: [p.x], [p[0]] and the
    first component of [dest - src] are all the first coordinate. *)
Record Point2D : Type := {
  x : Q;
  y : Q
}.

(** [np.finfo(float).eps], two to the power -52. *)
Definition eps : Q := 1 # 4503599627370496.

(** [ranges] is the array [[[x_low, x_high], [y_low, y_high]]]. *)
Record BoxBoundary2D : Type := {
  xrange : Q * Q;
  yrange : Q * Q
}.

Record BoxRegion2D : Type := {
  box_boundary : BoxBoundary2D;
  box_symbols : Props
}.

Record BallBoundary2D : Type := {
  center : Q * Q;
  radius : Q
}.

Record BallRegion2D : Type := {
  ball_boundary : BallBoundary2D;
  ball_symbols : Props
}.

(** [BoxBoundary2D.__init__]: the nested list must have shape (2, 2) and
    each low end must not exceed its high end. *)
Definition BoxBoundary2D_init (ranges : list (list Q))
    : result BoxBoundary2D :=
  match ranges with
  | [[x_low; x_high]; [y_low; y_high]] =>
      if Qle_bool x_low x_high && Qle_bool y_low y_high
      then Ok {| xrange := (x_low, x_high); yrange := (y_low, y_high) |}
      else Raise AssertionError
  | _ => Raise AssertionError
  end.

(** [BoxRegion2D.__init__] *)
Definition BoxRegion2D_init (ranges : list (list Q))
    (symbols : list string) : result BoxRegion2D :=
  b ← BoxBoundary2D_init ranges;
  Ok {| box_boundary := b; box_symbols := list_to_set symbols |}.

(** [BallBoundary2D.__init__] *)
Definition BallBoundary2D_init (center : list Q) (radius : Q)
    : result BallBoundary2D :=
  match center with
  | [cx; cy] =>
      if Qlt_bool 0 radius
      then Ok {| center := (cx, cy); radius := radius |}
      else Raise AssertionError
  | _ => Raise ValueError
  end.

(** [BallRegion2D.__init__] *)
Definition BallRegion2D_init (center : list Q) (radius : Q)
    (symbols : list string) : result BallRegion2D :=
  b ← BallBoundary2D_init center radius;
  Ok {| ball_boundary := b; ball_symbols := list_to_set symbols |}.

(** [BoxRegion2D.outputWord] and [BallRegion2D.outputWord]: both bodies
    are [raise NotImplementedError]. *)
Definition BoxRegion2D_outputWord (r : BoxRegion2D) (traj : list Point2D)
    : result (list Props) :=
  Raise NotImplementedError.

Definition BallRegion2D_outputWord (r : BallRegion2D) (traj : list Point2D)
    : result (list Props) :=
  Raise NotImplementedError.

(** [BoxBoundary2D.volume] *)
Definition volume (b : BoxBoundary2D) : Q :=
  ((xrange b).1 - (xrange b).2) * ((yrange b).1 - (yrange b).2).

Definition in_range (r : Q * Q) (c : Q) : bool :=
  Qle_bool r.1 c && Qle_bool c r.2.

(** One axis of [BoxBoundary2D.intersects]: [None] is the early
    [return False]; otherwise the entries of [u] and [v] for the axis,
    which stay at 0 and 1 on a constant axis. *)
Definition axis_slab (r : Q * Q) (s d : Q) : option (Q * Q) :=
  let diff := d - s in
  if Qlt_bool (Qabs diff) eps then
    if negb (in_range r s) then None else Some (0, 1)
  else Some ((r.1 - s) / diff, (r.2 - s) / diff).

(** [BoxBoundary2D.intersects(src, dest)]; [dest = None] asks whether
    [src] is inside. *)
Definition intersects (b : BoxBoundary2D) (src : Point2D)
    (dest : option Point2D) : bool :=
  match dest with
  | Some dest =>
      match axis_slab (xrange b) (x src) (x dest) with
      | None => false
      | Some (u0, v0) =>
          match axis_slab (yrange b) (y src) (y dest) with
          | None => false
          | Some (u1, v1) => Qle_bool (Qmax u0 u1) (Qmin v0 v1)
          end
      end
  | None => in_range (xrange b) (x src) && in_range (yrange b) (y src)
  end.

(** The slab clipping of the docstring of [intersects], for comparison:
    per axis the interval between the smaller and the larger crossing
    parameter, all of them intersected with [0, 1]. *)
Definition axis_interval (r : Q * Q) (s d : Q) : Q * Q :=
  if Qeq_bool s d then
    if in_range r s then (0, 1) else (1, 0)
  else (Qmin ((r.1 - s) / (d - s)) ((r.2 - s) / (d - s)),
        Qmax ((r.1 - s) / (d - s)) ((r.2 - s) / (d - s))).

Definition intersects_doc (b : BoxBoundary2D) (src dest : Point2D) : bool :=
  let '(l0, u0) := axis_interval (xrange b) (x src) (x dest) in
  let '(l1, u1) := axis_interval (yrange b) (y src) (y dest) in
  Qle_bool (Qmax 0 (Qmax l0 l1)) (Qmin 1 (Qmin u0 u1)).

(** The segment from [src] to [dest] has a point in the box. *)
Definition segment_meets_box (b : BoxBoundary2D) (src dest : Point2D)
    : Prop :=
  exists t : Q,
    0 <= t /\ t <= 1
    /\ (xrange b).1 <= x src + t * (x dest - x src)
    /\ x src + t * (x dest - x src) <= (xrange b).2
    /\ (yrange b).1 <= y src + t * (y dest - y src)
    /\ y src + t * (y dest - y src) <= (yrange b).2.

(** [BoxBoundary2D.contains]: both end points are inside the box. *)
Definition contains (b : BoxBoundary2D) (src dest : Point2D) : bool :=
  intersects b src None && intersects b dest None.

(** [BoxBoundary2D.boundingBox] hands back [ranges]. *)
Definition boundingBox (b : BoxBoundary2D) : list (list Q) :=
  [[(xrange b).1; (xrange b).2]; [(yrange b).1; (yrange b).2]].



(** The point of the segment from [src] to [dest] at parameter [t]. *)
Definition along (src dest : Point2D) (t : Q) : Point2D :=
  {| x := x src + t * (x dest - x src);
     y := y src + t * (y dest - y src) |}.


End maps2d.

(** ** Concrete instances used to run the definitions *)

Module example.

(** A Buchi automaton for "eventually a": state 0 waits, state 1 accepts. *)
Definition buchi_eventually_a : localrrt.Buchi nat :=
  {| localrrt.next_states q sigma :=
       match q, sigma with
       | O, Some props => if decide ("a" ∈ props) then [1%nat] else [0%nat]
       | O, None => []
       | _, _ => [1%nat]
       end |}.

(** A product automaton over three configurations on a line; the product
    state [(5, 1)] has potential 0 and two successors. *)
Definition pa_line : localrrt.Product Z nat :=
  {| localrrt.proj_ts :=
       {[ 0 := {[0%nat; 1%nat]}; 5 := {[1%nat]}; 7 := {[1%nat]} ]};
     localrrt.node_potential :=
       {[ (0, 0%nat) := Fin 2; (0, 1%nat) := Fin 1; (5, 1%nat) := Fin 0;
          (7, 1%nat) := Fin 1 ]};
     localrrt.succ :=
       {[ (0, 0%nat) := [(5, 1%nat)]; (0, 1%nat) := [(5, 1%nat)];
          (5, 1%nat) := [(5, 1%nat); (7, 1%nat)];
          (7, 1%nat) := [(5, 1%nat)] ]};
     localrrt.buchi := buchi_eventually_a |}.

(** A robot on the integer line: it moves at most two units per step,
    the region "a" lies from 4 on, and a local request "fire" sits at 3. *)
Definition robot_line : robots.Robot Z nat Z :=
  {| robots.initConf := 0;
     robots.sample n := (match n with O => 0 | _ => 5 end, S n);
     robots.steer src tgt _ :=
       if Z.abs (tgt - src) <=? 2 then tgt
       else if src <? tgt then src + 2 else src - 2;
     robots.getSymbols conf local :=
       if local then (if conf =? 3 then {["fire"]} else ∅)
       else (if 4 <=? conf then {["a"]} else ∅);
     robots.isSimpleSegment _ _ := true;
     robots.collision_free _ _ := true;
     robots.cspace_dist u v := inject_Z (Z.abs (u - v)) |}.

(** A checker for the one-state Buchi automaton of "true": a product
    state is a configuration, every Buchi edge exists, and a policy is
    found once two product states are linked in both directions. *)
Record Cycles : Type := {
  pa_nodes : gset (Z * unit);
  pa_edges : gset ((Z * unit) * (Z * unit))
}.

#[global] Instance Cycles_product : product.IncrementalProduct Z unit Cycles :=
  {| product.addInitialState pa x _ :=
       {| pa_nodes := {[(x, tt)]} ∪ pa_nodes pa; pa_edges := pa_edges pa |};
     product.check pa _ u v _ forward :=
       if forward then
         if bool_decide ((u, tt) ∈ pa_nodes pa)
         then {[((u, tt), (v, tt))]} else ∅
       else
         if bool_decide ((u, tt) ∈ pa_nodes pa)
            && bool_decide ((v, tt) ∈ pa_nodes pa)
         then {[((u, tt), (v, tt))]} else ∅;
     product.update pa E :=
       {| pa_nodes := pa_nodes pa ∪ set_map fst E ∪ set_map snd E;
          pa_edges := pa_edges pa ∪ E |};
     product.foundPolicy pa :=
       existsb (fun e => bool_decide ((e.2, e.1) ∈ pa_edges pa))
               (elements (pa_edges pa));
     product.buchi_has_edges _ := true |}.

(** The transition system under [pa_line]. *)
Definition ts_line : models.TS Z :=
  models.addState
    (models.addState (models.addState models.empty_ts 0 ∅ true)
                     5 {["a"]} false)
    7 {["a"]} false.

Definition survivor : localrrt.Request Z :=
  {| localrrt.region := 9; localrrt.name := "survivor";
     localrrt.priority := 0 |}.

Definition fire : localrrt.Request Z :=
  {| localrrt.region := 3; localrrt.name := "fire";
     localrrt.priority := 1 |}.

(** A local planner standing on the TS vertex 5, on the accepting cycle
    (potential 0), with Buchi set [{1}]. *)
Definition planner_on_cycle : localrrt.LocalPlanner Z nat nat Z :=
  {| localrrt.pa := pa_line; localrrt.ts := ts_line;
     localrrt.robot := robot_line;
     localrrt.local_plan := None; localrrt.tracking_req := None;
     localrrt.requests := []; localrrt.obstacles := [];
     localrrt.buchi_states := [{[0%nat]}; {[1%nat]}];
     localrrt.potential := [Fin 1; Fin 0];
     localrrt.global_target_state := 5 |}.

(** The same planner at the start, on vertex 0 with potential 1. *)
Definition planner_at_start : localrrt.LocalPlanner Z nat nat Z :=
  {| localrrt.pa := pa_line; localrrt.ts := ts_line;
     localrrt.robot := robot_line;
     localrrt.local_plan := None; localrrt.tracking_req := None;
     localrrt.requests := []; localrrt.obstacles := [];
     localrrt.buchi_states := [{[0%nat; 1%nat]}];
     localrrt.potential := [Fin 1];
     localrrt.global_target_state := 0 |}.

(** A local planner that tracks "survivor" and holds a plan through the
    "fire" region at 3; it is handed [requests]. *)
Definition planner_tracking (requests : list (localrrt.Request Z))
    : localrrt.LocalPlanner Z nat nat Z :=
  {| localrrt.pa := pa_line; localrrt.ts := ts_line;
     localrrt.robot := robot_line;
     localrrt.local_plan := Some [3; 5];
     localrrt.tracking_req := Some survivor;
     localrrt.requests := requests; localrrt.obstacles := [];
     localrrt.buchi_states := [{[0%nat; 1%nat]}];
     localrrt.potential := [Fin 1];
     localrrt.global_target_state := 5 |}.

(** Regions on the integer line for a workspace: an interval from [lo] to
    [hi] that carries one symbol and is compared by its end points;
    positions are integers, of which zero is the false one. *)
#[global] Instance interval_region
    : base.RegionOps (Z * Z * string) Z (Z * Z) :=
  {| base.symbols r := {[r.2]};
     base.region_intersects r p _ := (r.1.1 <=? p) && (p <=? r.1.2);
     base.geometry r := r.1;
     base.truthy p := negb (p =? 0) |}.

Definition room_a : Z * Z * string := (0, 4, "a"%string).
Definition room_b : Z * Z * string := (3, 9, "b"%string).

(** The interval of [room_a] under another symbol. *)
Definition room_c : Z * Z * string := (0, 4, "c"%string).

Definition workspace_line : base.Workspace (Z * Z * string) (Z * Z) :=
  base.addRegion (base.init (Some [room_a]) None) room_b true.

(** The unit square, and a box squeezed to a vertical segment. *)
Definition unit_box : maps2d.BoxBoundary2D :=
  {| maps2d.xrange := (0, 1)%Q; maps2d.yrange := (0, 1)%Q |}.

Definition flat_box : maps2d.BoxBoundary2D :=
  {| maps2d.xrange := (0, 0)%Q; maps2d.yrange := (0, 1)%Q |}.

Definition point (px py : Q) : maps2d.Point2D :=
  {| maps2d.x := px; maps2d.y := py |}.

Definition no_cycles : Cycles := {| pa_nodes := ∅; pa_edges := ∅ |}.

(** The planner on the line with [eta = [1, 3]]. *)
Definition planner_line (iterations : Z)
    : ltlrrg.RRGPlanner Z Cycles nat Z :=
  ltlrrg.set_eta (ltlrrg.init robot_line no_cycles iterations 0%nat)
                 (1, 3)%Q.

(** The same planner after one and after two calls of [iterate]. *)
Definition planner_line_1 : ltlrrg.RRGPlanner Z Cycles nat Z :=
  (ltlrrg.iterate (planner_line 3)).2.

Definition planner_line_2 : ltlrrg.RRGPlanner Z Cycles nat Z :=
  (ltlrrg.iterate planner_line_1).2.

End example.

(** * Properties *)

Section MinKey.
Context {A K : Type} (ltb : K -> K -> bool) (key : A -> result K).
Context (le : K -> K -> Prop).
Hypothesis le_refl : forall a, le a a.
Hypothesis le_trans : forall a b c, le a b -> le b c -> le a c.
Hypothesis ltb_true : forall a b, ltb a b = true -> le a b.
Hypothesis ltb_false : forall a b, ltb a b = false -> le b a.

Lemma min_from_spec (l : list A) (best : A) (kbest : K) :
  key best = Ok kbest ->
  Forall (fun x => is_ok (key x)) l ->
  exists m km, min_from ltb key best kbest l = Ok m /\
    (m = best \/ m ∈ l) /\ key m = Ok km /\ le km kbest /\
    forall x kx, x ∈ l -> key x = Ok kx -> le km kx.
Proof.
  revert best kbest. induction l as [|x l IH]; intros best kbest Hb Hl.
  - exists best, kbest. simpl. repeat split; auto.
    intros x kx Hx. by apply elem_of_nil in Hx.
  - inversion Hl as [|? ? Hx Hl']; subst. simpl.
    destruct (key x) as [kx|] eqn:Ekx; [|contradiction]. simpl.
    destruct (ltb kx kbest) eqn:Elt.
    + destruct (IH x kx Ekx Hl') as (m & km & Hr & Hm & Hk & Hle & Hall).
      exists m, km. repeat split; auto.
      * right. destruct Hm as [->|]; [left|right]; done.
      * eauto.
      * intros y ky [->|Hy]%elem_of_cons Eky; [|eauto].
        rewrite Ekx in Eky. by inversion Eky; subst.
    + destruct (IH best kbest Hb Hl') as (m & km & Hr & Hm & Hk & Hle & Hall).
      exists m, km. repeat split; auto.
      * destruct Hm as [->|]; [by left|right; by right].
      * intros y ky [->|Hy]%elem_of_cons Eky; [|eauto].
        rewrite Ekx in Eky. inversion Eky; subst. eauto.
Qed.

Lemma min_key_spec (l : list A) :
  l <> [] ->
  Forall (fun x => is_ok (key x)) l ->
  exists m km, min_key ltb key l = Ok m /\ m ∈ l /\ key m = Ok km /\
    forall x kx, x ∈ l -> key x = Ok kx -> le km kx.
Proof.
  destruct l as [|x l]; [done|]. intros _ Hl.
  inversion Hl as [|? ? Hx Hl']; subst. simpl.
  destruct (key x) as [kx|] eqn:Ekx; [|contradiction]. simpl.
  destruct (min_from_spec l x kx Ekx Hl') as (m & km & Hr & Hm & Hk & Hle & Hall).
  exists m, km. repeat split; auto.
  - destruct Hm as [->|]; [left|right]; done.
  - intros y ky [->|Hy]%elem_of_cons Eky; [|eauto].
    rewrite Ekx in Eky. by inversion Eky; subst.
Qed.
End MinKey.

Section PotentialOrder.
Lemma pot_ltb_false p q : pot_ltb p q = false -> pot_le q p.
Proof. destruct p, q; simpl; try done. intros ?%Z.ltb_ge. done. Qed.

Lemma pot_ltb_true p q : pot_ltb p q = true -> pot_le p q.
Proof. destruct p, q; simpl; try done. intros ?%Z.ltb_lt. lia. Qed.

Lemma pot_le_refl p : pot_le p p.
Proof. destruct p; simpl; [lia|done]. Qed.

Lemma pot_le_trans p q r : pot_le p q -> pot_le q r -> pot_le p r.
Proof. destruct p, q, r; simpl; try done; lia. Qed.
End PotentialOrder.

(** ** The half-monitor *)

Section Monitor.
Context {BState : Type} `{Countable BState}.
Implicit Types (B : gset BState) (buchi : localrrt.Buchi BState).
Implicit Types (sigma : Props).

Lemma elem_of_monitor_loop buchi (stop_prop : option Props)
    (l : list BState) (acc : gset BState) (q' : BState) :
  q' ∈ foldl (fun stop q =>
                stop ∪ list_to_set (localrrt.next_states buchi q stop_prop))
             acc l
  <-> q' ∈ acc \/
      exists q, q ∈ l /\ q' ∈ localrrt.next_states buchi q stop_prop.
Proof.
  revert acc. induction l as [|q l IH]; intros acc; simpl.
  - split; [auto|]. intros [?|(q & Hq & _)]; [done|].
    by apply elem_of_nil in Hq.
  - rewrite IH, elem_of_union, elem_of_list_to_set. split.
    + intros [[?|?]|(q0 & ? & ?)]; [by left| |].
      * right. exists q. split; [left|done].
      * right. exists q0. split; [by right|done].
    + intros [?|(q0 & [->|?]%elem_of_cons & ?)]; [by left; left| |].
      * left. by right.
      * right. by exists q0.
Qed.

Lemma elem_of_monitor_step B buchi sigma_prev sigma_next (q' : BState) :
  sigma_prev <> sigma_next ->
  q' ∈ localrrt.monitor B buchi sigma_prev (Some sigma_next)
  <-> exists q, q ∈ B /\
        q' ∈ localrrt.next_states buchi q (Some sigma_next).
Proof.
  intros Hne. unfold localrrt.monitor.
  rewrite bool_decide_eq_false_2 by congruence.
  rewrite elem_of_monitor_loop. split.
  - intros [?|(q & ?%elem_of_elements & ?)]; [set_solver|eauto].
  - intros (q & ? & ?). right. exists q. by rewrite elem_of_elements.
Qed.

Lemma monitor_same_prop B buchi sigma :
  localrrt.monitor B buchi sigma (Some sigma) = B.
Proof. unfold localrrt.monitor. by rewrite bool_decide_eq_true_2. Qed.

(** C3: the half-monitor returns the start set when the two propositions
    are equal, and otherwise the union over the start states [q] of
    [next_states q sigma_next]: the loop of the code computes the set that
    section 4.6 of the design describes. *)
Theorem monitor_refines_spec B buchi sigma_prev sigma_next :
  localrrt.monitor B buchi sigma_prev (Some sigma_next)
  = localrrt.monitor_spec B buchi sigma_prev sigma_next.
Proof.
  unfold localrrt.monitor_spec. destruct (decide (sigma_prev = sigma_next))
    as [->|Hne].
  - apply monitor_same_prop.
  - apply set_eq. intros q'. rewrite elem_of_monitor_step by done.
    rewrite elem_of_set_bind. by setoid_rewrite elem_of_list_to_set.
Qed.

Lemma monitor_empty buchi sigma_prev (stop_prop : option Props) :
  localrrt.monitor (∅ : gset BState) buchi sigma_prev stop_prop = ∅.
Proof.
  unfold localrrt.monitor. case_bool_decide; [done|].
  by rewrite elements_empty.
Qed.

Lemma monitor_along_empty buchi sigma_prev (props : list Props) :
  localrrt.monitor_along (∅ : gset BState) buchi sigma_prev props = ∅.
Proof.
  revert sigma_prev. induction props as [|p props IH]; intros sp; simpl.
  - done.
  - by rewrite monitor_empty.
Qed.

(** C10: for distinct propositions the half-monitor distributes over the
    union of start sets and maps the empty set to the empty set; so it is
    monotone in the start set, and along any trajectory an empty Buchi set
    stays empty. *)
Theorem monitor_union_hom buchi sigma_prev sigma_next B1 B2 :
  sigma_prev <> sigma_next ->
  localrrt.monitor (B1 ∪ B2) buchi sigma_prev (Some sigma_next)
    = localrrt.monitor B1 buchi sigma_prev (Some sigma_next)
      ∪ localrrt.monitor B2 buchi sigma_prev (Some sigma_next)
  /\ localrrt.monitor (∅ : gset BState) buchi sigma_prev (Some sigma_next)
     = ∅
  /\ (B1 ⊆ B2 ->
      localrrt.monitor B1 buchi sigma_prev (Some sigma_next)
        ⊆ localrrt.monitor B2 buchi sigma_prev (Some sigma_next))
  /\ (forall props : list Props,
        localrrt.monitor_along (∅ : gset BState) buchi sigma_prev props = ∅).
Proof.
  intros Hne. repeat split.
  - apply set_eq. intros q'.
    rewrite elem_of_union, !elem_of_monitor_step by done. split.
    + intros (q & [?|?]%elem_of_union & ?); [left|right]; eauto.
    + intros [(q & ? & ?)|(q & ? & ?)]; exists q; set_solver.
  - apply monitor_empty.
  - intros Hsub q'. rewrite !elem_of_monitor_step by done.
    intros (q & ? & ?). exists q. split; [by apply Hsub|done].
  - intros props. apply monitor_along_empty.
Qed.
End Monitor.

(** ** Potential of a TS node *)

Section ActualPotential.
Context {Conf BState : Type} `{Countable Conf, Countable BState}.
Implicit Types (pa : localrrt.Product Conf BState) (B : gset BState).

Lemma pa_states_empty (x : Conf) (S : gset BState) :
  (fun q => (x, q)) <$> elements S = [] <-> S = ∅.
Proof.
  split.
  - by intros ?%fmap_nil_inv%elements_empty_inv%leibniz_equiv.
  - intros ->. by rewrite elements_empty.
Qed.

(** C9: for a TS node [x] known to the product automaton whose product
    states over [B] carry a potential, [get_actual_potential] returns
    infinity when [proj_ts[x]] and [B] are disjoint, and otherwise the least
    stored potential of the product states [(x, q)], [q] in
    [proj_ts[x] ∩ B]; it raises in neither case. *)
Theorem get_actual_potential_spec (x : Conf) B pa (bs : gset BState) :
  localrrt.proj_ts pa !! x = Some bs ->
  (forall q, q ∈ bs ∩ B ->
     is_Some (localrrt.node_potential pa !! (x, q))) ->
  (bs ∩ B = ∅ -> localrrt.get_actual_potential x B pa = Ok Inf)
  /\ (bs ∩ B <> ∅ ->
      exists p, localrrt.get_actual_potential x B pa = Ok p
        /\ (exists q, q ∈ bs ∩ B
              /\ localrrt.node_potential pa !! (x, q) = Some p)
        /\ (forall q p', q ∈ bs ∩ B ->
              localrrt.node_potential pa !! (x, q) = Some p' ->
              pot_le p p')).
Proof.
  intros Hx Hpot. unfold localrrt.get_actual_potential, getitem.
  rewrite Hx. simpl. split.
  - intros ->. by rewrite elements_empty.
  - intros Hne.
    set (l := (fun q => (x, q)) <$> elements (bs ∩ B)).
    assert (Hl : l <> []) by (unfold l; by rewrite pa_states_empty).
    assert (Hok : Forall (fun s => is_ok (localrrt.potential_of pa s)) l).
    { apply Forall_forall. intros s (q & -> & Hq%elem_of_elements)%list_elem_of_fmap.
      destruct (Hpot q Hq) as [p Hp].
      unfold localrrt.potential_of, getitem. by rewrite Hp. }
    destruct (min_key_spec pot_ltb (localrrt.potential_of pa) pot_le
                pot_le_refl pot_le_trans pot_ltb_true pot_ltb_false l Hl Hok)
      as (m & km & Hmin & Hm & Hkm & Hall).
    destruct l as [|s0 l0] eqn:El; [done|]. rewrite <- El in *.
    unfold mbind, result_bind. rewrite Hmin. simpl. rewrite Hkm.
    exists km. split; [done|]. split.
    + apply list_elem_of_fmap in Hm as (q & -> & Hq%elem_of_elements).
      exists q. split; [done|].
      unfold localrrt.potential_of, getitem in Hkm.
      destruct (localrrt.node_potential pa !! (x, q)); by inversion Hkm.
    + intros q p' Hq Hp'. apply (Hall (x, q)).
      * apply list_elem_of_fmap. exists q. by rewrite elem_of_elements.
      * unfold localrrt.potential_of, getitem. by rewrite Hp'.
Qed.
End ActualPotential.

Section RunMonitor.
Lemma monitor_union_hom_witness :
  (∅ : Props) <> {["a"]}
  /\ (localrrt.monitor ({[0%nat]} ∪ {[0%nat; 1%nat]})
        example.buchi_eventually_a ∅ (Some {["a"]})
      = localrrt.monitor {[0%nat]} example.buchi_eventually_a ∅ (Some {["a"]})
        ∪ localrrt.monitor {[0%nat; 1%nat]} example.buchi_eventually_a ∅
            (Some {["a"]})
      /\ localrrt.monitor (∅ : gset nat) example.buchi_eventually_a ∅
           (Some {["a"]}) = ∅
      /\ (({[0%nat]} : gset nat) ⊆ {[0%nat; 1%nat]} ->
          localrrt.monitor {[0%nat]} example.buchi_eventually_a ∅
            (Some {["a"]})
          ⊆ localrrt.monitor {[0%nat; 1%nat]} example.buchi_eventually_a ∅
              (Some {["a"]}))
      /\ (forall props : list Props,
            localrrt.monitor_along (∅ : gset nat) example.buchi_eventually_a
              ∅ props = ∅)).
Proof.
  assert (Hne : (∅ : Props) <> {["a"]}) by set_solver.
  split; [exact Hne|].
  exact (monitor_union_hom example.buchi_eventually_a ∅ {["a"]}
           {[0%nat]} {[0%nat; 1%nat]} Hne).
Defined.

Example monitor_crosses_into_a :
  localrrt.monitor {[0%nat]} example.buchi_eventually_a ∅ (Some {["a"]})
  = {[1%nat]}.
Proof. reflexivity. Qed.

Example monitor_stays_outside_a :
  localrrt.monitor {[0%nat]} example.buchi_eventually_a ∅ (Some ∅)
  = {[0%nat]}.
Proof. reflexivity. Qed.

Lemma get_actual_potential_spec_witness :
  localrrt.proj_ts example.pa_line !! 0 = Some {[0%nat; 1%nat]}
  /\ exists p, localrrt.get_actual_potential 0 {[1%nat; 2%nat]}
                 example.pa_line = Ok p
       /\ (exists q, q ∈ ({[0%nat; 1%nat]} : gset nat) ∩ {[1%nat; 2%nat]}
             /\ localrrt.node_potential example.pa_line !! (0, q) = Some p)
       /\ (forall q p', q ∈ ({[0%nat; 1%nat]} : gset nat) ∩ {[1%nat; 2%nat]} ->
             localrrt.node_potential example.pa_line !! (0, q) = Some p' ->
             pot_le p p').
Proof.
  assert (Hx : localrrt.proj_ts example.pa_line !! 0
               = Some {[0%nat; 1%nat]}) by reflexivity.
  split; [exact Hx|].
  refine (proj2 (get_actual_potential_spec 0 {[1%nat; 2%nat]}
                   example.pa_line {[0%nat; 1%nat]} Hx _) _).
  - intros q Hq. assert (Hq1 : q = 1%nat) by (clear Hx; set_solver).
    subst q. by eexists.
  - set_solver.
Defined.

Example get_actual_potential_line :
  localrrt.get_actual_potential 0 {[1%nat; 2%nat]} example.pa_line
  = Ok (Fin 1).
Proof. reflexivity. Qed.

Example get_actual_potential_disjoint :
  localrrt.get_actual_potential 5 {[0%nat]} example.pa_line = Ok Inf.
Proof. reflexivity. Qed.

Example get_actual_potential_unknown_node :
  localrrt.get_actual_potential 9 {[0%nat]} example.pa_line = Raise KeyError.
Proof. reflexivity. Qed.
End RunMonitor.

(** ** The off-line RRG planner *)

Section Rationals.
Lemma Qlt_bool_iff (x y : Q) : Qlt_bool x y = true <-> (x < y)%Q.
Proof.
  unfold Qlt_bool. rewrite negb_true_iff, <- not_true_iff_false.
  rewrite Qle_bool_iff. split.
  - apply Qnot_le_lt.
  - apply Qlt_not_le.
Qed.

Lemma Qle_bool_false (x y : Q) : Qle_bool x y = false -> (y < x)%Q.
Proof.
  intros Hf. apply Qnot_le_lt. intros Hle.
  apply Qle_bool_iff in Hle. congruence.
Qed.
End Rationals.

Section RRG.
Context {Conf BState PA RNG Region : Type}.
Context `{Countable Conf, Countable BState}.
Context `{!product.IncrementalProduct Conf BState PA}.
Implicit Types (self : ltlrrg.RRGPlanner Conf PA RNG Region).
Implicit Types (t : models.TS Conf).

(** C7: once the checker reports a policy, [iterate] returns [True] and
    hands back the planner as it was: transition system, product automaton,
    generator state and parameters are all untouched. *)
Theorem iterate_frozen self :
  product.foundPolicy (ltlrrg.checker self) = true ->
  ltlrrg.iterate self = (Ok true, self)
  /\ ltlrrg.ts (ltlrrg.iterate self).2 = ltlrrg.ts self
  /\ ltlrrg.checker (ltlrrg.iterate self).2 = ltlrrg.checker self.
Proof.
  intros Hfound. unfold ltlrrg.iterate. by rewrite Hfound.
Qed.

(** *** The far test *)

Lemma elem_of_nodes_iter t (x : Conf) :
  x ∈ models.nodes_iter t <-> x ∈ dom (models.g_node t).
Proof. unfold models.nodes_iter. apply elem_of_elements. Qed.

Lemma far_spec self (p x : Conf) :
  x ∈ ltlrrg.far self p ->
  forall v, v ∈ dom (models.g_node (ltlrrg.ts self)) ->
            ((ltlrrg.eta self).1 < ltlrrg.metric self v p)%Q.
Proof.
  unfold ltlrrg.far.
  set (ret := filter _ (models.nodes_iter (ltlrrg.ts self))).
  destruct (existsb _ ret) eqn:Hany; [by intros ?%elem_of_nil|].
  intros Hx v Hv.
  assert (Hfar : forall w, w ∈ ret ->
            ((ltlrrg.eta self).1 < ltlrrg.metric self w p)%Q).
  { intros w Hw. apply Qle_bool_false.
    destruct (Qle_bool (ltlrrg.metric self w p) (ltlrrg.eta self).1) eqn:E;
      [|done].
    assert (existsb (fun v => Qle_bool (ltlrrg.metric self v p)
                                (ltlrrg.eta self).1) ret = true) as Hex.
    { apply existsb_exists. exists w. by rewrite <- list_elem_of_In. }
    congruence. }
  destruct (Qlt_bool (ltlrrg.metric self v p) (ltlrrg.eta self).2) eqn:Ev.
  - apply Hfar. unfold ret. apply list_elem_of_filter.
    split; [done|]. by apply elem_of_nodes_iter.
  - pose proof (Hfar x Hx) as Hxlo.
    unfold ret in Hx. apply list_elem_of_filter in Hx as [Hxhi _].
    apply Qlt_bool_iff in Hxhi.
    unfold Qlt_bool in Ev. apply negb_false_iff, Qle_bool_iff in Ev.
    eapply Qlt_le_trans; [|exact Ev]. by eapply Qlt_trans.
Qed.

(** The rejection of the far test: a vertex within [eta_hi] and at most
    [eta_lo] away from [p] empties the result. *)
Lemma far_rejects self (p v : Conf) :
  v ∈ dom (models.g_node (ltlrrg.ts self)) ->
  (ltlrrg.metric self v p < (ltlrrg.eta self).2)%Q ->
  (ltlrrg.metric self v p <= (ltlrrg.eta self).1)%Q ->
  ltlrrg.far self p = [].
Proof.
  intros Hv Hhi Hlo. unfold ltlrrg.far.
  set (ret := filter _ (models.nodes_iter (ltlrrg.ts self))).
  assert (Hex : existsb (fun v => Qle_bool (ltlrrg.metric self v p)
                                    (ltlrrg.eta self).1) ret = true).
  { apply existsb_exists. exists v. split.
    - apply list_elem_of_In. unfold ret. apply list_elem_of_filter.
      split; [by apply Qlt_bool_iff|by apply elem_of_nodes_iter].
    - by apply Qle_bool_iff. }
  by rewrite Hex.
Qed.

(** *** Vertices staged by the forward phase *)

Lemma forward_staged_Q self (newConf : Conf) (newProp : Props)
    (l : list Conf) (st : ltlrrg.Staged) (x : Conf) :
  x ∈ dom (ltlrrg.staged_Q
             (foldl (ltlrrg.forward_step self newConf newProp) st l)) ->
  x ∈ dom (ltlrrg.staged_Q st) \/ (x = newConf /\ l <> []).
Proof.
  revert st. induction l as [|s l IH]; intros st; simpl; [by left|].
  intros [Hx|[-> _]]%IH; [|by right].
  revert Hx. unfold ltlrrg.forward_step.
  destruct (robots.isSimpleSegment _ _ _); [|by left].
  case_bool_decide; [|by left]. simpl.
  case_bool_decide; [by left|].
  rewrite dom_insert_L, elem_of_union, elem_of_singleton.
  intros [->|?]; [by right|by left].
Qed.

Lemma addStates_dom t (l : list (Conf * Props)) :
  dom (models.g_node (models.addStates t l))
  = dom (models.g_node t) ∪ list_to_set l.*1.
Proof.
  unfold models.addStates. revert t.
  induction l as [|[c props] l IH]; intros t; simpl.
  - set_solver.
  - rewrite IH. simpl. rewrite dom_insert_L. set_solver.
Qed.

Lemma addStates_staged_dom t (Q : gmap Conf Props) :
  dom (models.g_node (models.addStates t (map_to_list Q)))
  = dom (models.g_node t) ∪ dom Q.
Proof.
  rewrite addStates_dom. f_equal. apply set_eq. intros x.
  rewrite elem_of_list_to_set, elem_of_dom, list_elem_of_fmap. split.
  - intros ([c props] & -> & Hin). apply elem_of_map_to_list in Hin. eauto.
  - intros [props Hx]. exists (x, props). split; [done|].
    by apply elem_of_map_to_list.
Qed.

(** One call of [iterate] keeps the robot and [eta], never removes a
    vertex, and every vertex it adds is farther than [eta_lo] from every
    vertex that was there. *)
Lemma iterate_nodes self r self' :
  ltlrrg.iterate self = (r, self') ->
  ltlrrg.robot self' = ltlrrg.robot self
  /\ ltlrrg.eta self' = ltlrrg.eta self
  /\ ltlrrg.maxIterations self' = ltlrrg.maxIterations self
  /\ ltlrrg.iteration self' = ltlrrg.iteration self
  /\ dom (models.g_node (ltlrrg.ts self))
       ⊆ dom (models.g_node (ltlrrg.ts self'))
  /\ (forall x, x ∈ dom (models.g_node (ltlrrg.ts self')) ->
       x ∈ dom (models.g_node (ltlrrg.ts self))
       \/ forall v, v ∈ dom (models.g_node (ltlrrg.ts self)) ->
            ((ltlrrg.eta self).1 < ltlrrg.metric self v x)%Q)
  /\ (forall x y, x ∈ dom (models.g_node (ltlrrg.ts self')) ->
       y ∈ dom (models.g_node (ltlrrg.ts self')) ->
       x ∈ dom (models.g_node (ltlrrg.ts self))
       \/ y ∈ dom (models.g_node (ltlrrg.ts self)) \/ x = y).
Proof.
  unfold ltlrrg.iterate.
  destruct (product.foundPolicy (ltlrrg.checker self)); simpl;
    [intros [= <- <-]; repeat split; auto|].
  destruct (robots.sample _ _) as [randomConf g].
  set (self1 := ltlrrg.set_random_state self g).
  destruct (ltlrrg.nearest self1 randomConf) as [nearestState|e];
    [|intros [= <- <-]; repeat split; auto].
  set (newConf := robots.steer _ nearestState randomConf None).
  set (newProp := robots.getSymbols _ newConf false).
  set (fwd := foldl _ _ _).
  set (self2 := ltlrrg.set_graphs self1 _ _).
  assert (Hdom : dom (models.g_node (ltlrrg.ts self2))
                 = dom (models.g_node (ltlrrg.ts self))
                   ∪ dom (ltlrrg.staged_Q fwd)).
  { unfold self2. simpl. apply addStates_staged_dom. }
  assert (Hnew : forall x, x ∈ dom (ltlrrg.staged_Q fwd) ->
            forall v, v ∈ dom (models.g_node (ltlrrg.ts self)) ->
              ((ltlrrg.eta self).1 < ltlrrg.metric self v x)%Q).
  { intros x Hx v Hv. unfold fwd in Hx.
    apply forward_staged_Q in Hx as [Hx|[-> Hfar]];
      [simpl in Hx; by rewrite dom_empty_L in Hx|].
    destruct (ltlrrg.far self1 newConf) as [|w far'] eqn:Efar; [done|].
    apply (far_spec self1 newConf w); [|done].
    rewrite Efar. by left. }
  assert (Hgoal : forall self3, ltlrrg.robot self3 = ltlrrg.robot self ->
            ltlrrg.eta self3 = ltlrrg.eta self ->
            ltlrrg.maxIterations self3 = ltlrrg.maxIterations self ->
            ltlrrg.iteration self3 = ltlrrg.iteration self ->
            models.g_node (ltlrrg.ts self3) = models.g_node (ltlrrg.ts self2) ->
            ltlrrg.robot self3 = ltlrrg.robot self
            /\ ltlrrg.eta self3 = ltlrrg.eta self
            /\ ltlrrg.maxIterations self3 = ltlrrg.maxIterations self
            /\ ltlrrg.iteration self3 = ltlrrg.iteration self
            /\ dom (models.g_node (ltlrrg.ts self))
                 ⊆ dom (models.g_node (ltlrrg.ts self3))
            /\ (forall x, x ∈ dom (models.g_node (ltlrrg.ts self3)) ->
                 x ∈ dom (models.g_node (ltlrrg.ts self))
                 \/ forall v, v ∈ dom (models.g_node (ltlrrg.ts self)) ->
                      ((ltlrrg.eta self).1 < ltlrrg.metric self v x)%Q)
            /\ (forall x y, x ∈ dom (models.g_node (ltlrrg.ts self3)) ->
                 y ∈ dom (models.g_node (ltlrrg.ts self3)) ->
                 x ∈ dom (models.g_node (ltlrrg.ts self))
                 \/ y ∈ dom (models.g_node (ltlrrg.ts self)) \/ x = y)).
  { intros self3 Hr He Hm Hi Hn. rewrite Hn, Hdom.
    split; [done|]. split; [done|]. split; [done|]. split; [done|].
    split; [set_solver|]. split.
    - intros x [?|?]%elem_of_union; [by left|right; by apply Hnew].
    - intros x y [?|Hx]%elem_of_union [?|Hy]%elem_of_union; auto.
      right; right.
      apply forward_staged_Q in Hx as [Hx|[-> _]];
        [simpl in Hx; by rewrite dom_empty_L in Hx|].
      apply forward_staged_Q in Hy as [Hy|[-> _]];
        [simpl in Hy; by rewrite dom_empty_L in Hy|].
      done. }
  destruct (ltlrrg.backward self2 _) as [bwd|e];
    [|intros [= <- <-]; by apply Hgoal].
  destruct (product.buchi_has_edges _);
    intros [= <- <-]; by apply Hgoal.
Qed.

(** *** Dispersion *)

Lemma iterate_dispersed self r self' :
  (forall u v, (ltlrrg.metric self u v == ltlrrg.metric self v u)%Q) ->
  ltlrrg.dispersed self ->
  ltlrrg.iterate self = (r, self') ->
  ltlrrg.dispersed self'.
Proof.
  intros Hsym Hdisp Hit.
  destruct (iterate_nodes self r self' Hit)
    as (Hrobot & Heta & _ & _ & _ & Hnew & Hone).
  intros u v Hu Hv Hne. unfold ltlrrg.metric. rewrite Hrobot, Heta.
  fold (ltlrrg.metric self u v).
  destruct (Hnew u Hu) as [Hu'|Hu']; destruct (Hnew v Hv) as [Hv'|Hv'].
  - by apply Hdisp.
  - apply Qlt_le_weak. by apply Hv'.
  - apply Qlt_le_weak. rewrite Hsym. by apply Hu'.
  - destruct (Hone u v Hu Hv) as [Hu''|[Hv''|?]]; [| |done].
    + apply Qlt_le_weak. by apply Hv'.
    + apply Qlt_le_weak. rewrite Hsym. by apply Hu'.
Qed.

Lemma init_dispersed (robot : robots.Robot Conf RNG Region) (checker : PA)
    (iterations : Z) (g : RNG) (e : Q * Q) :
  ltlrrg.dispersed (ltlrrg.set_eta (ltlrrg.init robot checker iterations g) e).
Proof.
  intros u v. simpl. rewrite insert_empty, dom_singleton_L.
  intros ->%elem_of_singleton ->%elem_of_singleton. done.
Qed.

Lemma reachable_robot start self :
  ltlrrg.reachable start self ->
  ltlrrg.robot self = ltlrrg.robot start
  /\ ltlrrg.eta self = ltlrrg.eta start.
Proof.
  induction 1 as [|self r self' _ [IHr IHe] Hit|self i _ IH]; [done| |done].
  destruct (iterate_nodes self r self' Hit) as (Hrobot & Heta & _).
  split; congruence.
Qed.

(** C1: when the metric is symmetric, every planner that a run reaches
    from a dispersed one is dispersed: any two distinct vertices of its
    transition system are at least [eta_lo] apart.  The planner that
    [__init__] builds has one vertex, so this holds after every iteration
    of a run ([init_dispersed]). *)
Theorem reachable_dispersed start self :
  (forall u v, (ltlrrg.metric start u v == ltlrrg.metric start v u)%Q) ->
  ltlrrg.dispersed start ->
  ltlrrg.reachable start self ->
  ltlrrg.dispersed self.
Proof.
  intros Hsym Hstart Hreach.
  induction Hreach as [|self r self' Hreach IH Hit|self i _ IH];
    [done| |exact IH].
  apply (iterate_dispersed self r self'); [|done|done].
  intros u v. unfold ltlrrg.metric.
  destruct (reachable_robot start self Hreach) as [-> _]. apply Hsym.
Qed.

(** *** [iterate] and [solve] return values *)

Lemma nearest_ok self (p : Conf) :
  dom (models.g_node (ltlrrg.ts self)) <> ∅ ->
  exists c, ltlrrg.nearest self p = Ok c.
Proof.
  intros Hne. unfold ltlrrg.nearest.
  destruct (min_key_spec Qlt_bool (fun x => Ok (ltlrrg.metric self p x))
              (fun _ _ => True) (fun _ => I) (fun _ _ _ _ _ => I)
              (fun _ _ _ => I) (fun _ _ _ => I)
              (models.nodes_iter (ltlrrg.ts self)))
    as (m & _ & Hm & _).
  - unfold models.nodes_iter.
    by intros ?%elements_empty_inv%leibniz_equiv.
  - by apply Forall_forall.
  - by exists m.
Qed.

Lemma forward_proposed self (newConf : Conf) (newProp : Props)
    (l : list Conf) (st : ltlrrg.Staged) e :
  e ∈ ltlrrg.staged_E
        (foldl (ltlrrg.forward_step self newConf newProp) st l) ->
  e ∈ ltlrrg.staged_E st \/ product.proposed (ltlrrg.checker self) e.
Proof.
  revert st. induction l as [|s l IH]; intros st; cbn [foldl]; [by left|].
  intros [He|?]%IH; [|by right].
  revert He. unfold ltlrrg.forward_step.
  destruct (robots.isSimpleSegment _ _ _); [|by left].
  case_bool_decide; [|by left]. simpl.
  intros [?|He]%elem_of_union; [by left|right].
  by eexists _, _, _, _, _.
Qed.

Lemma backward_inner_ok self (newState : Conf) (l : list Conf)
    (st : ltlrrg.Staged) :
  (forall x, x ∈ l -> x ∈ dom (models.g_node (ltlrrg.ts self))) ->
  (forall e, e ∈ ltlrrg.staged_E st ->
             product.proposed (ltlrrg.checker self) e) ->
  exists st',
    foldl (ltlrrg.backward_step self newState) (Ok st) l = Ok st'
    /\ forall e, e ∈ ltlrrg.staged_E st' ->
                 product.proposed (ltlrrg.checker self) e.
Proof.
  revert st. induction l as [|x l IH]; intros st Hl Hst; cbn [foldl];
    [by exists st|].
  assert (Hx : x ∈ dom (models.g_node (ltlrrg.ts self)))
    by (apply Hl; by left).
  apply elem_of_dom in Hx as [props Hx].
  assert (Hl' : forall y, y ∈ l -> y ∈ dom (models.g_node (ltlrrg.ts self)))
    by (intros y Hy; apply Hl; by right).
  assert (Hstep : exists st1,
            ltlrrg.backward_step self newState (Ok st) x = Ok st1
            /\ forall e, e ∈ ltlrrg.staged_E st1 ->
                         product.proposed (ltlrrg.checker self) e).
  { unfold ltlrrg.backward_step. simpl.
    destruct (bool_decide _ && _); [|by exists st].
    unfold getitem. rewrite Hx. simpl.
    case_bool_decide; [|by exists st].
    eexists. split; [done|]. simpl.
    intros e [?|He]%elem_of_union; [by apply Hst|].
    by eexists _, _, _, _, _. }
  destruct Hstep as (st1 & -> & Hst1). by apply IH.
Qed.

Lemma near_nodes self (p x : Conf) :
  x ∈ ltlrrg.near self p -> x ∈ dom (models.g_node (ltlrrg.ts self)).
Proof.
  unfold ltlrrg.near. intros [_ Hx]%list_elem_of_filter.
  by apply elem_of_nodes_iter.
Qed.

(** The backward phase cannot raise: it looks up the propositions of
    vertices of the transition system only. *)
Lemma backward_ok self (newStates : list Conf) :
  exists st', ltlrrg.backward self newStates = Ok st'
    /\ forall e, e ∈ ltlrrg.staged_E st' ->
                 product.proposed (ltlrrg.checker self) e.
Proof.
  unfold ltlrrg.backward.
  assert (Hnone : forall e,
            e ∈ ltlrrg.staged_E
                  (ltlrrg.no_staged (Conf:=Conf) (BState:=BState)) ->
            product.proposed (ltlrrg.checker self) e)
    by (intros e He; simpl in He; by apply not_elem_of_empty in He).
  revert Hnone. generalize (ltlrrg.no_staged (Conf:=Conf) (BState:=BState)).
  induction newStates as [|n l IH]; intros st Hst; cbn [foldl];
    [by exists st|].
  destruct (backward_inner_ok self n (ltlrrg.near self n) st)
    as (st' & -> & Hst'); [|done|by apply IH].
  intros x. apply near_nodes.
Qed.

(** One call of [iterate] on a planner with a vertex and a sound checker
    returns a value, which is what the checker reports afterwards. *)
Lemma iterate_ok (Inv : PA -> Prop) self :
  product.sound_checker Inv ->
  Inv (ltlrrg.checker self) ->
  dom (models.g_node (ltlrrg.ts self)) <> ∅ ->
  exists b self', ltlrrg.iterate self = (Ok b, self')
    /\ b = product.foundPolicy (ltlrrg.checker self')
    /\ Inv (ltlrrg.checker self').
Proof.
  intros [Hupd Hassert] Hinv Hne. unfold ltlrrg.iterate.
  destruct (product.foundPolicy (ltlrrg.checker self)) eqn:Hfound; simpl;
    [by exists true, self|].
  destruct (robots.sample _ _) as [randomConf g].
  destruct (nearest_ok (ltlrrg.set_random_state self g) randomConf Hne)
    as [c ->].
  set (self1 := ltlrrg.set_random_state self g).
  set (newConf := robots.steer _ c randomConf None).
  set (newProp := robots.getSymbols _ newConf false).
  set (fwd := foldl _ _ _).
  set (self2 := ltlrrg.set_graphs self1 _ _).
  assert (Hinv2 : Inv (ltlrrg.checker self2)).
  { unfold self2. simpl. apply Hupd; [done|].
    intros e [He|He]%forward_proposed; [|done].
    simpl in He. by apply not_elem_of_empty in He. }
  destruct (backward_ok self2 (map_to_list (ltlrrg.staged_Q fwd)).*1)
    as (bwd & -> & Hbwd).
  simpl. rewrite Hassert by (by apply Hupd).
  eexists _, _. split; [done|]. split; [done|]. simpl. by apply Hupd.
Qed.

(** The value of [iterate] is the report of the checker it leaves: [True]
    exactly when a policy has been found by the end of the call. *)
Lemma iterate_reports self (b : bool) self' :
  ltlrrg.iterate self = (Ok b, self') ->
  b = product.foundPolicy (ltlrrg.checker self').
Proof.
  unfold ltlrrg.iterate.
  destruct (product.foundPolicy (ltlrrg.checker self)) eqn:Hfound; simpl;
    [by intros [= <- <-]|].
  destruct (robots.sample _ _) as [randomConf g].
  destruct (ltlrrg.nearest _ randomConf) as [c|e]; [|done].
  destruct (ltlrrg.backward _ _) as [bwd|e]; [|done].
  destruct (product.buchi_has_edges _); [|done].
  by intros [= <- <-].
Qed.

(** Between the iterations of a failed run the checker reports no policy. *)
Lemma failed_run_not_found (i : Z) self (n : nat) self' :
  ltlrrg.failed_run i self (S n) self' ->
  product.foundPolicy (ltlrrg.checker self') = false.
Proof.
  revert i self. induction n as [|n IH]; intros i self Hrun.
  - inversion Hrun as [|? ? self1 ? ? Hit Hrest]; subst.
    inversion Hrest; subst. symmetry. by eapply iterate_reports.
  - inversion Hrun as [|? ? self1 ? ? Hit Hrest]; subst. by eapply IH.
Qed.

Lemma iterate_keeps_nodes self r self' :
  dom (models.g_node (ltlrrg.ts self)) <> ∅ ->
  ltlrrg.iterate self = (r, self') ->
  dom (models.g_node (ltlrrg.ts self')) <> ∅.
Proof.
  intros Hne Hit.
  destruct (iterate_nodes self r self' Hit) as (_ & _ & _ & _ & Hsub & _).
  set_solver.
Qed.

Lemma solve_loop_spec (Inv : PA -> Prop) (n : nat) (i : Z) self :
  product.sound_checker Inv ->
  Inv (ltlrrg.checker self) ->
  dom (models.g_node (ltlrrg.ts self)) <> ∅ ->
  (exists (k : nat) self1 self',
      (k < n)%nat
      /\ ltlrrg.failed_run i self k self1
      /\ ltlrrg.iterate (ltlrrg.set_iteration self1 (i + Z.of_nat k))
         = (Ok true, self')
      /\ ltlrrg.solve_loop (seqZ i (Z.of_nat n)) self = (Ok true, self')
      /\ product.foundPolicy (ltlrrg.checker self') = true
      /\ ltlrrg.iteration self' = i + Z.of_nat k)
  \/ (exists self',
        ltlrrg.failed_run i self n self'
        /\ ltlrrg.solve_loop (seqZ i (Z.of_nat n)) self = (Ok false, self')).
Proof.
  intros Hsound. revert i self.
  induction n as [|n IH]; intros i self Hinv Hne.
  - right. exists self. split; [constructor|done].
  - rewrite seqZ_cons by lia. cbn [ltlrrg.solve_loop].
    replace (Z.pred (Z.of_nat (S n))) with (Z.of_nat n) by lia.
    destruct (iterate_ok Inv (ltlrrg.set_iteration self i) Hsound Hinv Hne)
      as (b & self1 & Hit & Hb & Hinv1).
    rewrite Hit. destruct b.
    + left. exists 0%nat, self, self1. rewrite Z.add_0_r.
      split; [lia|]. split; [constructor|]. split; [done|].
      split; [done|]. split; [done|].
      by destruct (iterate_nodes _ _ _ Hit) as (_ & _ & _ & -> & _).
    + assert (Hne1 : dom (models.g_node (ltlrrg.ts self1)) <> ∅)
        by (by eapply (iterate_keeps_nodes (ltlrrg.set_iteration self i))).
      destruct (IH (Z.succ i) self1 Hinv1 Hne1)
        as [(k & s1 & s' & Hk & Hrun & Hlast & Hsolve & Hfound & Hiter)
           |(s' & Hrun & Hsolve)].
      * left. exists (S k), s1, s'.
        replace (i + Z.of_nat (S k)) with (Z.succ i + Z.of_nat k) by lia.
        split; [lia|]. split; [|done].
        econstructor; [exact Hit|]. by replace (i + 1) with (Z.succ i) by lia.
      * right. exists s'. split; [|done].
        econstructor; [exact Hit|]. by replace (i + 1) with (Z.succ i) by lia.
Qed.

(** C4: [solve] never raises when the transition system has a vertex and
    the checker is sound (its states keep the product edges inside the Buchi
    automaton, which is what the assertion of [iterate] tests).  Either some
    iteration [k + 1], at most [maxIterations], is the first whose
    [iterate] returns [True], and [solve] returns [True] right there with
    the checker reporting a policy and [self.iteration = k + 1]; or all
    [maxIterations] iterations return [False] and [solve] returns [False]
    after exactly that many (none when [maxIterations] is not positive). *)
Theorem solve_spec (Inv : PA -> Prop) self :
  product.sound_checker Inv ->
  Inv (ltlrrg.checker self) ->
  dom (models.g_node (ltlrrg.ts self)) <> ∅ ->
  (exists (k : nat) self1 self',
      (k < Z.to_nat (ltlrrg.maxIterations self))%nat
      /\ ltlrrg.failed_run 1 self k self1
      /\ ltlrrg.iterate (ltlrrg.set_iteration self1 (1 + Z.of_nat k))
         = (Ok true, self')
      /\ ltlrrg.solve self = (Ok true, self')
      /\ product.foundPolicy (ltlrrg.checker self') = true
      /\ ltlrrg.iteration self' = 1 + Z.of_nat k)
  \/ (exists self',
        ltlrrg.failed_run 1 self (Z.to_nat (ltlrrg.maxIterations self)) self'
        /\ ltlrrg.solve self = (Ok false, self')).
Proof.
  intros Hsound Hinv Hne. unfold ltlrrg.solve.
  destruct (Z.le_gt_cases 0 (ltlrrg.maxIterations self)) as [Hpos|Hneg].
  - pose proof (solve_loop_spec Inv (Z.to_nat (ltlrrg.maxIterations self)) 1
                  self Hsound Hinv Hne) as Hloop.
    rewrite Z2Nat.id in Hloop by done. exact Hloop.
  - right. exists self.
    replace (Z.to_nat (ltlrrg.maxIterations self)) with 0%nat by lia.
    split; [constructor|].
    rewrite seqZ_nil by lia. done.
Qed.
End RRG.

Section RunRRG.
Lemma metric_line_sym (u v : Z) :
  (ltlrrg.metric (example.planner_line 3) u v
   == ltlrrg.metric (example.planner_line 3) v u)%Q.
Proof.
  unfold ltlrrg.metric. simpl.
  replace (Z.abs (u - v)) with (Z.abs (v - u)) by lia. reflexivity.
Defined.

Lemma planner_line_reachable :
  ltlrrg.reachable (example.planner_line 3) example.planner_line_2.
Proof.
  eapply ltlrrg.reachable_iterate with (self := example.planner_line_1).
  - eapply ltlrrg.reachable_iterate; [apply ltlrrg.reachable_start|].
    apply surjective_pairing.
  - apply surjective_pairing.
Defined.

Lemma reachable_dispersed_witness :
  (forall u v, (ltlrrg.metric (example.planner_line 3) u v
                == ltlrrg.metric (example.planner_line 3) v u)%Q)
  /\ ltlrrg.dispersed (example.planner_line 3)
  /\ ltlrrg.reachable (example.planner_line 3) example.planner_line_2
  /\ ltlrrg.dispersed example.planner_line_2.
Proof.
  split; [exact metric_line_sym|].
  split; [apply init_dispersed|].
  split; [exact planner_line_reachable|].
  exact (reachable_dispersed (example.planner_line 3) example.planner_line_2
           metric_line_sym
           (init_dispersed example.robot_line example.no_cycles 3 0%nat
              (1, 3)%Q)
           planner_line_reachable).
Defined.

Example planner_line_2_nodes :
  elements (dom (models.g_node (ltlrrg.ts example.planner_line_2)))
  = [2; 0].
Proof. vm_compute. reflexivity. Qed.

Lemma planner_line_has_node (n : Z) :
  dom (models.g_node (ltlrrg.ts (example.planner_line n))) <> ∅.
Proof.
  simpl. rewrite insert_empty, dom_singleton_L.
  intros Heq. apply (not_elem_of_empty (C := gset Z) 0).
  rewrite <- Heq. by apply elem_of_singleton.
Defined.

Lemma cycles_sound : product.sound_checker (fun _ : example.Cycles => True).
Proof. by split. Defined.

Lemma solve_spec_witness :
  product.sound_checker (fun _ : example.Cycles => True)
  /\ dom (models.g_node (ltlrrg.ts (example.planner_line 3))) <> ∅
  /\ ((exists (k : nat) self1 self',
         (k < Z.to_nat (ltlrrg.maxIterations (example.planner_line 3)))%nat
         /\ ltlrrg.failed_run 1 (example.planner_line 3) k self1
         /\ ltlrrg.iterate (ltlrrg.set_iteration self1 (1 + Z.of_nat k))
            = (Ok true, self')
         /\ ltlrrg.solve (example.planner_line 3) = (Ok true, self')
         /\ product.foundPolicy (ltlrrg.checker self') = true
         /\ ltlrrg.iteration self' = 1 + Z.of_nat k)
      \/ (exists self',
           ltlrrg.failed_run 1 (example.planner_line 3)
             (Z.to_nat (ltlrrg.maxIterations (example.planner_line 3))) self'
           /\ ltlrrg.solve (example.planner_line 3) = (Ok false, self'))).
Proof.
  split; [exact cycles_sound|].
  split; [exact (planner_line_has_node 3)|].
  exact (solve_spec (fun _ => True) (example.planner_line 3) cycles_sound I
           (planner_line_has_node 3)).
Defined.

Example solve_line_finds_policy :
  (ltlrrg.solve (example.planner_line 3)).1 = Ok true
  /\ ltlrrg.iteration (ltlrrg.solve (example.planner_line 3)).2 = 2.
Proof. vm_compute. done. Qed.

Example solve_line_gives_up :
  (ltlrrg.solve (example.planner_line 1)).1 = Ok false
  /\ ltlrrg.iteration (ltlrrg.solve (example.planner_line 1)).2 = 1.
Proof. vm_compute. done. Qed.

Lemma iterate_frozen_witness :
  product.foundPolicy (ltlrrg.checker example.planner_line_2) = true
  /\ ltlrrg.iterate example.planner_line_2
     = (Ok true, example.planner_line_2)
  /\ ltlrrg.ts (ltlrrg.iterate example.planner_line_2).2
     = ltlrrg.ts example.planner_line_2
  /\ ltlrrg.checker (ltlrrg.iterate example.planner_line_2).2
     = ltlrrg.checker example.planner_line_2.
Proof.
  assert (Hfound : product.foundPolicy
                     (ltlrrg.checker example.planner_line_2) = true)
    by (vm_compute; reflexivity).
  split; [exact Hfound|].
  exact (iterate_frozen example.planner_line_2 Hfound).
Defined.
End RunRRG.

(** ** The on-line local planner *)

Section LocalPlanner.
Context {Conf BState RNG Region : Type}.
Context `{Countable Conf, Countable BState, EqDecision Region}.
Implicit Types (self : localrrt.LocalPlanner Conf BState RNG Region).

(** In the tie that the design singles out (current potential 0 and a best
    successor of potential 0) the call never returns a successor: the
    targets are held in a tuple, and removing from it raises. *)
Lemma min_potential_zero_tie self (state : Conf) (B : gset BState)
    (targets : list (Conf * BState)) (opt : Conf * BState) :
  last_item (localrrt.buchi_states self) = Ok B ->
  localrrt.unzip_targets
    (localrrt.out_edges_iter (localrrt.pa self)
       ((fun q => (state, q)) <$> elements B)) = Ok targets ->
  min_key pot_ltb (localrrt.potential_of (localrrt.pa self)) targets
    = Ok opt ->
  last_item (localrrt.potential self) = Ok (Fin 0) ->
  localrrt.potential_of (localrrt.pa self) opt = Ok (Fin 0) ->
  localrrt.min_potential_global_state self state = Raise AttributeError.
Proof.
  intros HB Ht Hmin Hcur Hopt. unfold localrrt.min_potential_global_state.
  rewrite HB. simpl. rewrite Ht. simpl. rewrite Hmin. simpl.
  rewrite Hcur. simpl. by rewrite Hopt.
Qed.

(** With requests present, a planner that tracks nothing, or tracks one of
    the requests, ends up tracking a request of least priority, and the
    call returns what [local_plan_hit] says for it. *)
Lemma check_local_plan_tracks_min self :
  localrrt.requests self <> [] ->
  (forall tr, localrrt.tracking_req self = Some tr ->
              tr ∈ localrrt.requests self) ->
  exists req,
    localrrt.tracking_req (localrrt.check_local_plan self).2 = Some req
    /\ req ∈ localrrt.requests self
    /\ (forall r, r ∈ localrrt.requests self ->
          localrrt.priority req <= localrrt.priority r)
    /\ (localrrt.check_local_plan self).1
       = localrrt.local_plan_hit (localrrt.check_local_plan self).2.
Proof.
  intros Hne Htr. unfold localrrt.check_local_plan.
  destruct (localrrt.requests self) as [|r0 rs] eqn:Ereq; [done|].
  cbn [localrrt.truthy]. rewrite <- Ereq in *.
  destruct (min_key_spec Z.ltb
              (fun req : localrrt.Request Region =>
                 Ok (localrrt.priority req))
              Z.le Z.le_refl Z.le_trans
              (fun a b Hab => Z.lt_le_incl _ _ (proj1 (Z.ltb_lt a b) Hab))
              (fun a b Hab => proj1 (Z.ltb_ge a b) Hab)
              (localrrt.requests self))
    as (m & km & Hmin & Hm & Hkm & Hall).
  { by rewrite Ereq. }
  { by apply Forall_forall. }
  injection Hkm as <-.
  assert (Hleast : forall r, r ∈ localrrt.requests self ->
            localrrt.priority m <= localrrt.priority r)
    by (intros r Hr; by apply (Hall r)).
  rewrite Hmin.
  destruct (localrrt.tracking_req self) as [tr|] eqn:Etr.
  - destruct (localrrt.priority tr >? localrrt.priority m) eqn:Egt; simpl.
    + by exists m.
    + exists tr. rewrite Etr. split; [done|].
      assert (Hin : tr ∈ localrrt.requests self) by by apply Htr.
      split; [done|]. split; [|done].
      intros r Hr. rewrite Z.gtb_ltb in Egt. apply Z.ltb_ge in Egt.
      specialize (Hleast r Hr). lia.
  - simpl. by exists m.
Qed.

(** Without requests the tracked request is reset. *)
Lemma check_local_plan_no_requests self :
  localrrt.requests self = [] ->
  localrrt.tracking_req (localrrt.check_local_plan self).2 = None.
Proof.
  intros Hreq. unfold localrrt.check_local_plan. rewrite Hreq.
  cbn [localrrt.truthy].
  destruct (localrrt.tracking_req self) as [tr|] eqn:Etr; [|done].
  rewrite bool_decide_eq_true_2; [done|]. apply not_elem_of_nil.
Qed.
End LocalPlanner.

Section RunLocalPlanner.
(** C5, on the code: on vertex 5 the planner has potential 0, the best
    successor [(5, 1)] has potential 0 and the successor [(7, 1)] has
    potential 1.  The design asks for 7; the call raises
    [AttributeError] instead, because the successors are a tuple. *)
Theorem min_potential_global_state_zero_tie_raises :
  last_item (localrrt.potential example.planner_on_cycle) = Ok (Fin 0)
  /\ localrrt.out_edges_iter example.pa_line [(5, 1%nat)]
     = [((5, 1%nat), (5, 1%nat)); ((5, 1%nat), (7, 1%nat))]
  /\ localrrt.potential_of example.pa_line (5, 1%nat) = Ok (Fin 0)
  /\ localrrt.potential_of example.pa_line (7, 1%nat) = Ok (Fin 1)
  /\ localrrt.min_potential_global_state example.planner_on_cycle 5
     = Raise AttributeError.
Proof. vm_compute. done. Qed.

Example min_potential_global_state_at_start :
  localrrt.min_potential_global_state example.planner_at_start 0 = Ok 5.
Proof. vm_compute. reflexivity. Qed.

(** C6, on the code: the planner tracks "survivor" (priority 0), which is
    no longer among the requests; the only request is "fire"
    (priority 1), and the pending plan passes through the "fire" region.
    The call keeps the stale "survivor" as [tracking_req], neither
    switching to "fire" nor clearing it, and answers [False]. *)
Theorem check_local_plan_keeps_stale_request :
  localrrt.check_local_plan (example.planner_tracking [example.fire])
  = (Ok false, example.planner_tracking [example.fire])
  /\ localrrt.tracking_req
       (localrrt.check_local_plan
          (example.planner_tracking [example.fire])).2
     = Some example.survivor
  /\ (example.survivor
       ∉ localrrt.requests (example.planner_tracking [example.fire]))
  /\ localrrt.local_plan_hit
       (localrrt.set_tracking_req (example.planner_tracking [example.fire])
          (Some example.fire)) = Ok true.
Proof.
  split; [vm_compute; reflexivity|].
  split; [vm_compute; reflexivity|].
  split; [|vm_compute; reflexivity].
  intros Hin. apply list_elem_of_singleton in Hin. discriminate Hin.
Qed.

Example check_local_plan_switches_to_survivor :
  localrrt.tracking_req
    (localrrt.check_local_plan
       (localrrt.set_tracking_req
          (example.planner_tracking [example.fire; example.survivor])
          (Some example.fire))).2
  = Some example.survivor.
Proof. vm_compute. reflexivity. Qed.

Example check_local_plan_resets_without_requests :
  localrrt.tracking_req
    (localrrt.check_local_plan (example.planner_tracking [])).2 = None.
Proof. vm_compute. reflexivity. Qed.
End RunLocalPlanner.

(** ** Boxes and balls *)

Section Regions.
Local Open Scope Q_scope.

Lemma Qlt_bool_spec (a b : Q) : Qlt_bool a b = true <-> a < b.
Proof. apply Qlt_bool_iff. Qed.

Lemma ball_init_ok (cx cy r : Q) :
  is_ok (maps2d.BallBoundary2D_init [cx; cy] r) <-> 0 < r.
Proof.
  unfold maps2d.BallBoundary2D_init.
  destruct (Qlt_bool 0 r) eqn:E; simpl.
  - apply Qlt_bool_spec in E. tauto.
  - split; [done|]. intros Hr%Qlt_bool_spec. congruence.
Qed.

Lemma box_init_ok (xl xh yl yh : Q) :
  is_ok (maps2d.BoxBoundary2D_init [[xl; xh]; [yl; yh]])
  <-> xl <= xh /\ yl <= yh.
Proof.
  unfold maps2d.BoxBoundary2D_init.
  destruct (Qle_bool xl xh && Qle_bool yl yh) eqn:E; simpl.
  - apply andb_true_iff in E as [?%Qle_bool_iff ?%Qle_bool_iff]. tauto.
  - split; [done|]. intros [?%Qle_bool_iff ?%Qle_bool_iff].
    apply andb_false_iff in E as [?|?]; congruence.
Qed.

(** C8, on the code: a box whose x range is the single point 0 has volume
    0, and both constructors accept it; and on the region so built the later
    operation [outputWord] raises. *)
Lemma zero_volume_box_accepted :
  maps2d.BoxBoundary2D_init [[0; 0]; [0; 1]] = Ok example.flat_box
  /\ maps2d.volume example.flat_box == 0
  /\ maps2d.BoxRegion2D_init [[0; 0]; [0; 1]] ["o4"%string]
     = Ok {| maps2d.box_boundary := example.flat_box;
             maps2d.box_symbols := {["o4"%string]} |}
  /\ maps2d.BoxRegion2D_outputWord
       {| maps2d.box_boundary := example.flat_box;
          maps2d.box_symbols := {["o4"%string]} |} []
     = Raise NotImplementedError.
Proof. repeat split. Qed.

(** C8, amended: the ball constructors succeed exactly when the radius is
    positive, and fail on a radius that is zero or negative; the box
    constructors succeed exactly when no low end exceeds its high end, so
    they fail on an inverted range and accept a range squeezed to a
    point.  Of the later operations, [outputWord] raises on every region. *)
Theorem region_construction_guards (cx cy r xl xh yl yh : Q)
    (symbols : list string) :
  (is_ok (maps2d.BallBoundary2D_init [cx; cy] r) <-> 0 < r)
  /\ (is_ok (maps2d.BallRegion2D_init [cx; cy] r symbols) <-> 0 < r)
  /\ (r <= 0 ->
      maps2d.BallBoundary2D_init [cx; cy] r = Raise AssertionError
      /\ maps2d.BallRegion2D_init [cx; cy] r symbols = Raise AssertionError)
  /\ (is_ok (maps2d.BoxBoundary2D_init [[xl; xh]; [yl; yh]])
      <-> xl <= xh /\ yl <= yh)
  /\ (is_ok (maps2d.BoxRegion2D_init [[xl; xh]; [yl; yh]] symbols)
      <-> xl <= xh /\ yl <= yh)
  /\ (forall box ball traj,
        maps2d.BoxRegion2D_outputWord box traj = Raise NotImplementedError
        /\ maps2d.BallRegion2D_outputWord ball traj
           = Raise NotImplementedError).
Proof.
  split; [apply ball_init_ok|].
  split.
  { rewrite <- (ball_init_ok cx cy r). unfold maps2d.BallRegion2D_init.
    by destruct (maps2d.BallBoundary2D_init [cx; cy] r). }
  split.
  { intros Hr. unfold maps2d.BallRegion2D_init, maps2d.BallBoundary2D_init.
    destruct (Qlt_bool 0 r) eqn:E; [|done].
    apply Qlt_bool_spec in E. lra. }
  split; [apply box_init_ok|].
  split; [|done].
  rewrite <- (box_init_ok xl xh yl yh). unfold maps2d.BoxRegion2D_init.
  by destruct (maps2d.BoxBoundary2D_init [[xl; xh]; [yl; yh]]).
Qed.

Lemma region_construction_guards_witness :
  (-1 <= 0)
  /\ maps2d.BallBoundary2D_init [0; 0] (-1) = Raise AssertionError
  /\ maps2d.BallRegion2D_init [0; 0] (-1) ["fire"%string]
     = Raise AssertionError.
Proof.
  assert (Hr : -1 <= 0) by lra.
  split; [exact Hr|].
  exact (proj1 (proj2 (proj2 (region_construction_guards
                                0 0 (-1) 0 1 0 1 ["fire"%string]))) Hr).
Defined.

Lemma Qeq_bool_false (a b : Q) : Qeq_bool a b = false -> ~ a == b.
Proof. intros Hf Heq. apply Qeq_bool_iff in Heq. congruence. Qed.

Lemma slab_pos (lo hi s diff t : Q) :
  0 < diff ->
  ((lo - s) / diff <= t <-> lo <= s + t * diff)
  /\ (t <= (hi - s) / diff <-> s + t * diff <= hi).
Proof.
  intros Hd.
  assert (Hne : ~ diff == 0) by lra.
  pose proof (Qmult_div_r (lo - s) diff Hne) as Ha.
  pose proof (Qmult_div_r (hi - s) diff Hne) as Hb.
  set (a := (lo - s) / diff) in *. set (b := (hi - s) / diff) in *.
  split; split; intros; nra.
Qed.

Lemma slab_order (lo hi s diff : Q) :
  lo <= hi ->
  (0 < diff -> (lo - s) / diff <= (hi - s) / diff)
  /\ (diff < 0 -> (hi - s) / diff <= (lo - s) / diff).
Proof.
  intros Hr. split; intros Hd.
  - assert (Hne : ~ diff == 0) by lra.
    pose proof (Qmult_div_r (lo - s) diff Hne) as Ha.
    pose proof (Qmult_div_r (hi - s) diff Hne) as Hb.
    set (a := (lo - s) / diff) in *. set (b := (hi - s) / diff) in *. nra.
  - assert (Hne : ~ diff == 0) by lra.
    pose proof (Qmult_div_r (lo - s) diff Hne) as Ha.
    pose proof (Qmult_div_r (hi - s) diff Hne) as Hb.
    set (a := (lo - s) / diff) in *. set (b := (hi - s) / diff) in *. nra.
Qed.

Lemma slab_neg (lo hi s diff t : Q) :
  diff < 0 ->
  ((hi - s) / diff <= t <-> s + t * diff <= hi)
  /\ (t <= (lo - s) / diff <-> lo <= s + t * diff).
Proof.
  intros Hd.
  assert (Hne : ~ diff == 0) by lra.
  pose proof (Qmult_div_r (lo - s) diff Hne) as Ha.
  pose proof (Qmult_div_r (hi - s) diff Hne) as Hb.
  set (a := (lo - s) / diff) in *. set (b := (hi - s) / diff) in *.
  split; split; intros; nra.
Qed.

Lemma in_range_iff (r : Q * Q) (c : Q) :
  maps2d.in_range r c = true <-> r.1 <= c /\ c <= r.2.
Proof.
  unfold maps2d.in_range. rewrite andb_true_iff, !Qle_bool_iff. tauto.
Qed.

Lemma axis_interval_spec (r : Q * Q) (s d t : Q) :
  r.1 <= r.2 -> 0 <= t -> t <= 1 ->
  ((maps2d.axis_interval r s d).1 <= t /\ t <= (maps2d.axis_interval r s d).2)
  <-> (r.1 <= s + t * (d - s) /\ s + t * (d - s) <= r.2).
Proof.
  intros Hr Ht0 Ht1. unfold maps2d.axis_interval.
  destruct (Qeq_bool s d) eqn:Esd.
  - apply Qeq_bool_iff in Esd.
    assert (Hs : s + t * (d - s) == s) by (rewrite Esd; ring).
    rewrite Hs.
    destruct (maps2d.in_range r s) eqn:Ein; simpl.
    + apply in_range_iff in Ein. tauto.
    + split; [lra|]. intros Hin%in_range_iff. congruence.
  - apply Qeq_bool_false in Esd. simpl.
    rewrite Q.min_le_iff, Q.max_le_iff.
    destruct (Qlt_le_dec 0 (d - s)) as [Hpos|Hneg].
    + destruct (slab_pos r.1 r.2 s (d - s) t Hpos) as [Ha Hb].
      pose proof (proj1 (slab_order r.1 r.2 s (d - s) Hr) Hpos) as Hord.
      split.
      * intros [[H1|H1] [H2|H2]]; split; try (apply Ha); try (apply Hb); lra.
      * intros [H1 H2]. split; [left; by apply Ha|right; by apply Hb].
    + assert (Hlt : d - s < 0).
      { destruct (Qlt_le_dec (d - s) 0) as [?|?]; [done|].
        exfalso. apply Esd. lra. }
      destruct (slab_neg r.1 r.2 s (d - s) t Hlt) as [Ha Hb].
      pose proof (proj2 (slab_order r.1 r.2 s (d - s) Hr) Hlt) as Hord.
      split.
      * intros [[H1|H1] [H2|H2]]; split; try (apply Ha); try (apply Hb); lra.
      * intros [H1 H2]. split; [right; by apply Ha|left; by apply Hb].
Qed.

(** The slab clipping that the docstring of [intersects] describes decides
    whether the segment meets the box. *)
Lemma intersects_doc_correct (b : maps2d.BoxBoundary2D)
    (src dest : maps2d.Point2D) :
  (maps2d.xrange b).1 <= (maps2d.xrange b).2 ->
  (maps2d.yrange b).1 <= (maps2d.yrange b).2 ->
  maps2d.intersects_doc b src dest = true
  <-> maps2d.segment_meets_box b src dest.
Proof.
  intros Hx Hy. unfold maps2d.intersects_doc, maps2d.segment_meets_box.
  pose proof (axis_interval_spec (maps2d.xrange b) (maps2d.x src)
                (maps2d.x dest)) as HX.
  pose proof (axis_interval_spec (maps2d.yrange b) (maps2d.y src)
                (maps2d.y dest)) as HY.
  destruct (maps2d.axis_interval (maps2d.xrange b) _ _) as [l0 u0].
  destruct (maps2d.axis_interval (maps2d.yrange b) _ _) as [l1 u1].
  simpl in HX, HY.
  rewrite Qle_bool_iff. split.
  - intros Hle. exists (Qmax 0 (Qmax l0 l1)).
    pose proof (Q.le_max_l 0 (Qmax l0 l1)) as H0.
    pose proof (Q.le_max_r 0 (Qmax l0 l1)) as H1.
    pose proof (Q.le_max_l l0 l1) as H2.
    pose proof (Q.le_max_r l0 l1) as H3.
    pose proof (Q.le_min_l 1 (Qmin u0 u1)) as H4.
    pose proof (Q.le_min_r 1 (Qmin u0 u1)) as H5.
    pose proof (Q.le_min_l u0 u1) as H6.
    pose proof (Q.le_min_r u0 u1) as H7.
    set (t := Qmax 0 (Qmax l0 l1)) in *.
    assert (Ht1 : t <= 1) by lra.
    split; [done|]. split; [done|].
    destruct (proj1 (HX t Hx H0 Ht1)) as [? ?]; [lra|].
    destruct (proj1 (HY t Hy H0 Ht1)) as [? ?]; [lra|].
    tauto.
  - intros (t & Ht0 & Ht1 & Hx1 & Hx2 & Hy1 & Hy2).
    destruct (proj2 (HX t Hx Ht0 Ht1)) as [? ?]; [done|].
    destruct (proj2 (HY t Hy Ht0 Ht1)) as [? ?]; [done|].
    apply Q.max_lub; [|apply Q.max_lub]; (apply Q.min_glb; [|apply Q.min_glb]);
      lra.
Qed.

(** Whatever the box, [intersects] rejects every segment that moves
    towards smaller x across a box of positive width. *)
Lemma intersects_rejects_leftward (b : maps2d.BoxBoundary2D)
    (src dest : maps2d.Point2D) :
  (maps2d.xrange b).1 < (maps2d.xrange b).2 ->
  maps2d.x dest - maps2d.x src <= - maps2d.eps ->
  maps2d.intersects b src (Some dest) = false.
Proof.
  intros Hx Hd. unfold maps2d.intersects, maps2d.axis_slab at 1.
  assert (Heps : 0 < maps2d.eps) by reflexivity.
  set (diff := maps2d.x dest - maps2d.x src) in *.
  assert (Habs : Qlt_bool (Qabs diff) maps2d.eps = false).
  { apply not_true_iff_false. intros Hlt%Qlt_bool_iff.
    rewrite Qabs_neg in Hlt by lra. lra. }
  rewrite Habs.
  destruct (maps2d.axis_slab (maps2d.yrange b) _ _) as [[u1 v1]|]; [|done].
  apply not_true_iff_false. intros Hle%Qle_bool_iff.
  assert (Hne : ~ diff == 0) by lra.
  pose proof (Qmult_div_r ((maps2d.xrange b).1 - maps2d.x src) diff Hne) as Ha.
  pose proof (Qmult_div_r ((maps2d.xrange b).2 - maps2d.x src) diff Hne) as Hb.
  pose proof (Q.le_max_l (((maps2d.xrange b).1 - maps2d.x src) / diff) u1).
  pose proof (Q.le_min_l (((maps2d.xrange b).2 - maps2d.x src) / diff) v1).
  set (u0 := ((maps2d.xrange b).1 - maps2d.x src) / diff) in *.
  set (v0 := ((maps2d.xrange b).2 - maps2d.x src) / diff) in *.
  assert (u0 <= v0) by lra. nra.
Qed.

(** C2, on the code: the diagonal of the unit square walked from (1, 1)
    to (0, 0) lies in the box, the slab clipping of the docstring says so,
    and [intersects] answers [False]; the segment from (2, 2) to (3, 3)
    stays outside the box, the slab clipping says so, and [intersects]
    answers [True]. *)
Theorem intersects_disagrees_with_clipping :
  (maps2d.intersects example.unit_box (example.point 1 1)
     (Some (example.point 0 0)) = false
   /\ maps2d.segment_meets_box example.unit_box (example.point 1 1)
        (example.point 0 0)
   /\ maps2d.intersects_doc example.unit_box (example.point 1 1)
        (example.point 0 0) = true)
  /\ (maps2d.intersects example.unit_box (example.point 2 2)
        (Some (example.point 3 3)) = true
      /\ ~ maps2d.segment_meets_box example.unit_box (example.point 2 2)
             (example.point 3 3)
      /\ maps2d.intersects_doc example.unit_box (example.point 2 2)
           (example.point 3 3) = false).
Proof.
  split; split; [reflexivity| |reflexivity| ].
  - split; [|reflexivity].
    exists 0. simpl. repeat split; lra.
  - split; [|reflexivity].
    intros (t & Ht0 & Ht1 & Hx & Hx' & _). simpl in *. lra.
Qed.

Example intersects_forward_diagonal :
  maps2d.intersects example.unit_box (example.point 0 0)
    (Some (example.point 1 1)) = true.
Proof. reflexivity. Qed.
End Regions.


(** * Further properties of the code *)

(** ** The off-line RRG planner: candidates and growth *)

Section RRGGrowth.
Context {Conf BState PA RNG Region : Type}.
Context `{Countable Conf, Countable BState}.
Context `{!product.IncrementalProduct Conf BState PA}.
Implicit Types (self : ltlrrg.RRGPlanner Conf PA RNG Region).
Implicit Types (t : models.TS Conf).

(** X1: [far(p)] holds exactly the vertices closer to [p] than [eta_hi],
    and only when no such vertex is within [eta_lo] of [p]. *)
Theorem far_elem_of self (p x : Conf) :
  x ∈ ltlrrg.far self p
  <-> x ∈ dom (models.g_node (ltlrrg.ts self))
      /\ (ltlrrg.metric self x p < (ltlrrg.eta self).2)%Q
      /\ forall v, v ∈ dom (models.g_node (ltlrrg.ts self)) ->
           (ltlrrg.metric self v p < (ltlrrg.eta self).2)%Q ->
           ((ltlrrg.eta self).1 < ltlrrg.metric self v p)%Q.
Proof.
  split.
  - intros Hx. pose proof (far_spec self p x Hx) as Hall.
    unfold ltlrrg.far in Hx. destruct (existsb _ _); [by apply elem_of_nil in Hx|].
    apply list_elem_of_filter in Hx as [Hhi Hin%elem_of_nodes_iter].
    apply Qlt_bool_iff in Hhi. split; [done|]. split; [done|].
    intros v Hv _. by apply Hall.
  - intros (Hin & Hhi & Hall). unfold ltlrrg.far.
    set (ret := filter _ (models.nodes_iter (ltlrrg.ts self))).
    assert (Hx : x ∈ ret).
    { unfold ret. apply list_elem_of_filter.
      split; [by apply Qlt_bool_iff|by apply elem_of_nodes_iter]. }
    destruct (existsb _ ret) eqn:Hany; [|done].
    apply existsb_exists in Hany as (v & Hv%list_elem_of_In & Hle).
    apply Qle_bool_iff in Hle.
    unfold ret in Hv. apply list_elem_of_filter in Hv as [Hvhi Hvin].
    apply Qlt_bool_iff in Hvhi. apply elem_of_nodes_iter in Hvin.
    specialize (Hall v Hvin Hvhi). lra.
Qed.

(** X2: [nearest(p)] returns a vertex of the transition system that no
    other vertex beats in distance to [p]; it raises, with [ValueError], only
    on a transition system without vertices. *)
Theorem nearest_spec self (p : Conf) :
  match ltlrrg.nearest self p with
  | Ok c =>
      c ∈ dom (models.g_node (ltlrrg.ts self))
      /\ forall v, v ∈ dom (models.g_node (ltlrrg.ts self)) ->
           (ltlrrg.metric self p c <= ltlrrg.metric self p v)%Q
  | Raise e => e = ValueError /\ dom (models.g_node (ltlrrg.ts self)) = ∅
  end.
Proof.
  unfold ltlrrg.nearest.
  destruct (models.nodes_iter (ltlrrg.ts self)) as [|n l] eqn:El.
  - simpl. split; [done|].
    unfold models.nodes_iter in El.
    by apply elements_empty_inv, leibniz_equiv in El.
  - destruct (min_key_spec Qlt_bool (fun x => Ok (ltlrrg.metric self p x))
                Qle Qle_refl Qle_trans
                (fun a b Hab => Qlt_le_weak _ _ (proj1 (Qlt_bool_iff a b) Hab))
                (fun a b Hab =>
                   proj1 (Qle_bool_iff b a) (proj1 (negb_false_iff _) Hab))
                (n :: l))
      as (m & km & -> & Hm & Hkm & Hall); [done|by apply Forall_forall|].
    injection Hkm as <-. rewrite <- El in *. split.
    + by apply elem_of_nodes_iter.
    + intros v Hv%elem_of_nodes_iter. by apply (Hall v).
Qed.

(** *** Edges staged by the two phases *)

Lemma forward_Q_mono self (newConf : Conf) (newProp : Props)
    (l : list Conf) (st : ltlrrg.Staged) (x : Conf) :
  x ∈ dom (ltlrrg.staged_Q st) ->
  x ∈ dom (ltlrrg.staged_Q
             (foldl (ltlrrg.forward_step self newConf newProp) st l)).
Proof.
  revert st. induction l as [|s l IH]; intros st Hx; cbn [foldl]; [done|].
  apply IH. unfold ltlrrg.forward_step.
  destruct (robots.isSimpleSegment _ _ _); [|done].
  case_bool_decide; [|done]. simpl.
  case_bool_decide; [done|]. rewrite dom_insert_L. set_solver.
Qed.

Lemma forward_Delta self (newConf : Conf) (newProp : Props)
    (l : list Conf) (st : ltlrrg.Staged) (u v : Conf) :
  (u, v) ∈ ltlrrg.staged_Delta
             (foldl (ltlrrg.forward_step self newConf newProp) st l) ->
  (u, v) ∈ ltlrrg.staged_Delta st
  \/ (u ∈ l /\ v = newConf
      /\ robots.isSimpleSegment (ltlrrg.robot self) u newConf = true
      /\ newConf ∈ dom (ltlrrg.staged_Q
                          (foldl (ltlrrg.forward_step self newConf newProp)
                                 st l))).
Proof.
  revert st. induction l as [|s l IH]; intros st; cbn [foldl]; [by left|].
  intros [Huv|(Hu & -> & Hs & Hq)]%IH.
  - revert Huv. unfold ltlrrg.forward_step at 1.
    destruct (robots.isSimpleSegment _ s newConf) eqn:Esimple; [|by left].
    case_bool_decide as HEp; [|by left]. simpl.
    intros [?|[= -> ->]%elem_of_singleton]%elem_of_union; [by left|right].
    split; [by left|]. split; [done|]. split; [done|].
    apply forward_Q_mono. unfold ltlrrg.forward_step.
    rewrite Esimple. rewrite bool_decide_eq_true_2 by done. simpl.
    case_bool_decide; [done|]. rewrite dom_insert_L. set_solver.
  - right. split; [by right|]. done.
Qed.

Lemma backward_inner_raise self (newState : Conf) (l : list Conf) e :
  foldl (ltlrrg.backward_step self newState) (Raise e) l = Raise e.
Proof. induction l as [|x l IH]; [done|]. cbn [foldl]. apply IH. Qed.

Lemma backward_inner_Delta self (newState : Conf) (l : list Conf)
    (st st' : ltlrrg.Staged) (u v : Conf) :
  foldl (ltlrrg.backward_step self newState) (Ok st) l = Ok st' ->
  (u, v) ∈ ltlrrg.staged_Delta st' ->
  (u, v) ∈ ltlrrg.staged_Delta st
  \/ (u = newState /\ v ∈ l
      /\ robots.isSimpleSegment (ltlrrg.robot self) newState v = true).
Proof.
  revert st. induction l as [|x l IH]; intros st; cbn [foldl].
  - intros [= ->]. by left.
  - destruct (ltlrrg.backward_step self newState (Ok st) x) as [st1|e]
      eqn:Estep; [|by rewrite backward_inner_raise].
    intros Hfold [Huv|(-> & Hv & Hs)]%(IH st1 Hfold).
    + revert Estep Huv. unfold ltlrrg.backward_step. simpl.
      destruct (bool_decide (x = _)) eqn:Esteer; simpl;
        [|intros [= <-]; by left].
      destruct (robots.isSimpleSegment _ newState x) eqn:Esimple;
        [|intros [= <-]; by left].
      destruct (getitem _ x) as [prop|]; unfold mbind, result_bind; simpl;
        [|done].
      destruct (bool_decide (_ <> ∅)); intros [= <-]; [|by left]. simpl.
      intros [?|[= -> ->]%elem_of_singleton]%elem_of_union; [by left|right].
      split; [done|]. split; [by left|done].
    + right. split; [done|]. split; [by right|done].
Qed.

Lemma backward_Delta self (newStates : list Conf) (bwd : ltlrrg.Staged)
    (u v : Conf) :
  ltlrrg.backward self newStates = Ok bwd ->
  (u, v) ∈ ltlrrg.staged_Delta bwd ->
  u ∈ newStates /\ v ∈ ltlrrg.near self u
  /\ robots.isSimpleSegment (ltlrrg.robot self) u v = true.
Proof.
  unfold ltlrrg.backward.
  assert (Hgen : forall (l : list Conf) (st : ltlrrg.Staged),
            foldl (fun acc newState =>
                     foldl (ltlrrg.backward_step self newState) acc
                           (ltlrrg.near self newState))
                  (Ok st) l = Ok bwd ->
            (u, v) ∈ ltlrrg.staged_Delta bwd ->
            (u, v) ∈ ltlrrg.staged_Delta st
            \/ (u ∈ l /\ v ∈ ltlrrg.near self u
                /\ robots.isSimpleSegment (ltlrrg.robot self) u v = true)).
  { induction l as [|n l IH]; intros st; cbn [foldl].
    - intros [= ->]. by left.
    - destruct (foldl (ltlrrg.backward_step self n) (Ok st)
                  (ltlrrg.near self n)) as [st1|e] eqn:Einner.
      + intros Hfold [Huv|(Hu & Hv & Hs)]%(IH st1 Hfold).
        * destruct (backward_inner_Delta self n _ st st1 u v Einner Huv)
            as [?|(-> & Hv & Hs)]; [by left|right].
          split; [by left|done].
        * right. split; [by right|done].
      + intros Hfold. exfalso. clear IH Einner. revert Hfold.
        induction l as [|m l IHl]; cbn [foldl]; [done|].
        by rewrite backward_inner_raise. }
  intros Hb Huv. destruct (Hgen newStates _ Hb Huv) as [Hin|?]; [|done].
  simpl in Hin. by apply not_elem_of_empty in Hin.
Qed.

Lemma near_elem_of self (p x : Conf) :
  x ∈ ltlrrg.near self p
  <-> x ∈ dom (models.g_node (ltlrrg.ts self))
      /\ (0 < ltlrrg.metric self x p)%Q
      /\ (ltlrrg.metric self x p < (ltlrrg.eta self).2)%Q.
Proof.
  unfold ltlrrg.near. rewrite list_elem_of_filter, elem_of_nodes_iter.
  rewrite andb_true_iff, !Qlt_bool_iff. tauto.
Qed.

Lemma addStates_edges t (l : list (Conf * Props)) :
  models.g_edges (models.addStates t l) = models.g_edges t
  /\ models.init (models.addStates t l) = models.init t.
Proof.
  unfold models.addStates. revert t.
  induction l as [|[c props] l IH]; intros t; [done|].
  cbn [foldl]. destruct (IH (models.addState t c props false)) as [He Hi].
  split; [exact He|exact Hi].
Qed.

(** What one call of [iterate] does to the edges: it keeps the initial
    marker and the edges that were there, and an edge it adds joins two
    vertices of the new transition system by a simple segment shorter than
    [eta_hi] in one direction. *)
Lemma iterate_edges self r self' :
  ltlrrg.iterate self = (r, self') ->
  models.init (ltlrrg.ts self') = models.init (ltlrrg.ts self)
  /\ models.g_edges (ltlrrg.ts self) ⊆ models.g_edges (ltlrrg.ts self')
  /\ forall u v, (u, v) ∈ models.g_edges (ltlrrg.ts self') ->
       (u, v) ∈ models.g_edges (ltlrrg.ts self)
       \/ (u ∈ dom (models.g_node (ltlrrg.ts self'))
           /\ v ∈ dom (models.g_node (ltlrrg.ts self'))
           /\ robots.isSimpleSegment (ltlrrg.robot self) u v = true
           /\ ((ltlrrg.metric self u v < (ltlrrg.eta self).2)%Q
               \/ (ltlrrg.metric self v u < (ltlrrg.eta self).2)%Q)).
Proof.
  unfold ltlrrg.iterate.
  destruct (product.foundPolicy (ltlrrg.checker self)); simpl;
    [intros [= <- <-]; by auto|].
  destruct (robots.sample _ _) as [randomConf g].
  set (self1 := ltlrrg.set_random_state self g).
  destruct (ltlrrg.nearest self1 randomConf) as [nearestState|e];
    [|intros [= <- <-]; by auto].
  set (newConf := robots.steer _ nearestState randomConf None).
  set (newProp := robots.getSymbols _ newConf false).
  set (fwd := foldl _ _ _).
  set (self2 := ltlrrg.set_graphs self1 _ _).
  assert (Hdom2 : dom (models.g_node (ltlrrg.ts self2))
                  = dom (models.g_node (ltlrrg.ts self))
                    ∪ dom (ltlrrg.staged_Q fwd))
    by (unfold self2; simpl; apply addStates_staged_dom).
  destruct (addStates_edges (ltlrrg.ts self)
              (map_to_list (ltlrrg.staged_Q fwd))) as [Hedges Hinit].
  assert (Hfwd : forall u v, (u, v) ∈ ltlrrg.staged_Delta fwd ->
            u ∈ dom (models.g_node (ltlrrg.ts self2))
            /\ v ∈ dom (models.g_node (ltlrrg.ts self2))
            /\ robots.isSimpleSegment (ltlrrg.robot self) u v = true
            /\ (ltlrrg.metric self u v < (ltlrrg.eta self).2)%Q).
  { intros u v Huv. unfold fwd in Huv.
    apply forward_Delta in Huv as [Huv|(Hu & -> & Hs & Hq)];
      [simpl in Huv; by apply not_elem_of_empty in Huv|].
    apply (far_elem_of self1) in Hu as (Hu & Hhi & _).
    rewrite Hdom2. split; [set_solver|]. split; [|done].
    apply elem_of_union. by right. }
  assert (Hbwd : forall bwd u v,
            ltlrrg.backward self2 (map_to_list (ltlrrg.staged_Q fwd)).*1
              = Ok bwd ->
            (u, v) ∈ ltlrrg.staged_Delta bwd ->
            u ∈ dom (models.g_node (ltlrrg.ts self2))
            /\ v ∈ dom (models.g_node (ltlrrg.ts self2))
            /\ robots.isSimpleSegment (ltlrrg.robot self) u v = true
            /\ (ltlrrg.metric self v u < (ltlrrg.eta self).2)%Q).
  { intros bwd u v Hb Huv.
    destruct (backward_Delta self2 _ bwd u v Hb Huv) as (Hu & Hv & Hs).
    apply near_elem_of in Hv as (Hv & _ & Hhi).
    split; [|done]. rewrite Hdom2. apply elem_of_union. right.
    apply list_elem_of_fmap in Hu as ([c props] & -> & Hin).
    apply elem_of_map_to_list in Hin. apply elem_of_dom. by eexists. }
  assert (Hmid : models.init (ltlrrg.ts self2) = models.init (ltlrrg.ts self)
            /\ models.g_edges (ltlrrg.ts self)
                 ⊆ models.g_edges (ltlrrg.ts self2)
            /\ forall u v, (u, v) ∈ models.g_edges (ltlrrg.ts self2) ->
                 (u, v) ∈ models.g_edges (ltlrrg.ts self)
                 \/ (u ∈ dom (models.g_node (ltlrrg.ts self2))
                     /\ v ∈ dom (models.g_node (ltlrrg.ts self2))
                     /\ robots.isSimpleSegment (ltlrrg.robot self) u v = true
                     /\ ((ltlrrg.metric self u v < (ltlrrg.eta self).2)%Q
                         \/ (ltlrrg.metric self v u
                               < (ltlrrg.eta self).2)%Q))).
  { unfold self2 at 1 2 3. simpl. rewrite Hedges, Hinit.
    split; [done|]. split; [set_solver|].
    intros u v [?|Huv]%elem_of_union; [by left|right].
    destruct (Hfwd u v Huv) as (? & ? & ? & ?). auto. }
  destruct (ltlrrg.backward self2 _) as [bwd|e] eqn:Eb;
    [|intros [= <- <-]; exact Hmid].
  destruct Hmid as (Hi & Hsub & Hall).
  assert (Hlast : forall self3,
            models.init (ltlrrg.ts self3) = models.init (ltlrrg.ts self2) ->
            models.g_node (ltlrrg.ts self3) = models.g_node (ltlrrg.ts self2) ->
            models.g_edges (ltlrrg.ts self3)
              = models.g_edges (ltlrrg.ts self2) ∪ ltlrrg.staged_Delta bwd ->
            models.init (ltlrrg.ts self3) = models.init (ltlrrg.ts self)
            /\ models.g_edges (ltlrrg.ts self)
                 ⊆ models.g_edges (ltlrrg.ts self3)
            /\ forall u v, (u, v) ∈ models.g_edges (ltlrrg.ts self3) ->
                 (u, v) ∈ models.g_edges (ltlrrg.ts self)
                 \/ (u ∈ dom (models.g_node (ltlrrg.ts self3))
                     /\ v ∈ dom (models.g_node (ltlrrg.ts self3))
                     /\ robots.isSimpleSegment (ltlrrg.robot self) u v = true
                     /\ ((ltlrrg.metric self u v < (ltlrrg.eta self).2)%Q
                         \/ (ltlrrg.metric self v u
                               < (ltlrrg.eta self).2)%Q))).
  { intros self3 H3i H3n H3e. rewrite H3i, H3n, H3e.
    split; [done|]. split; [set_solver|].
    intros u v [Huv|Huv]%elem_of_union; [by apply Hall|right].
    destruct (Hbwd bwd u v eq_refl Huv) as (? & ? & ? & ?). auto. }
  destruct (product.buchi_has_edges _); intros [= <- <-]; by apply Hlast.
Qed.

(** X3: one call of [iterate], whatever it returns, never removes a vertex
    or an edge, keeps the initial marker, and adds at most one vertex. *)
Theorem iterate_grows self :
  dom (models.g_node (ltlrrg.ts self))
    ⊆ dom (models.g_node (ltlrrg.ts (ltlrrg.iterate self).2))
  /\ models.g_edges (ltlrrg.ts self)
       ⊆ models.g_edges (ltlrrg.ts (ltlrrg.iterate self).2)
  /\ models.init (ltlrrg.ts (ltlrrg.iterate self).2)
     = models.init (ltlrrg.ts self)
  /\ (size (dom (models.g_node (ltlrrg.ts (ltlrrg.iterate self).2)))
      <= S (size (dom (models.g_node (ltlrrg.ts self)))))%nat.
Proof.
  destruct (ltlrrg.iterate self) as [r self'] eqn:Hit. simpl.
  destruct (iterate_nodes self r self' Hit) as (_ & _ & _ & _ & Hsub & _ & Hone).
  destruct (iterate_edges self r self' Hit) as (Hinit & Hedges & _).
  split; [done|]. split; [done|]. split; [done|].
  set (old := dom (models.g_node (ltlrrg.ts self))) in *.
  set (new := dom (models.g_node (ltlrrg.ts self'))) in *.
  destruct (decide (new ∖ old = ∅)) as [Hsame|Hmore].
  - assert (new ⊆ old) by set_solver.
    etrans; [by apply subseteq_size|lia].
  - apply set_choose_L in Hmore as [x Hx].
    assert (Hcover : new ⊆ old ∪ {[x]}).
    { intros y Hy. destruct (Hone x y) as [?|[?|<-]]; set_solver. }
    etrans; [by apply subseteq_size|].
    rewrite size_union by set_solver. rewrite size_singleton. lia.
Qed.

Lemma iterate_edges_closed self r self' :
  ltlrrg.edges_closed self -> ltlrrg.iterate self = (r, self') ->
  ltlrrg.edges_closed self'.
Proof.
  intros Hc Hit u v Huv.
  destruct (iterate_nodes self r self' Hit) as (_ & _ & _ & _ & Hsub & _).
  destruct (iterate_edges self r self' Hit) as (_ & _ & Hall).
  destruct (Hall u v Huv) as [Hold|(? & ? & _)]; [|done].
  destruct (Hc u v Hold). split; by apply Hsub.
Qed.

Lemma iterate_edges_simple self r self' :
  ltlrrg.edges_simple self -> ltlrrg.iterate self = (r, self') ->
  ltlrrg.edges_simple self'.
Proof.
  intros Hc Hit u v Huv.
  destruct (iterate_nodes self r self' Hit) as (-> & _).
  destruct (iterate_edges self r self' Hit) as (_ & _ & Hall).
  destruct (Hall u v Huv) as [Hold|(_ & _ & ? & _)]; [by apply Hc|done].
Qed.

Lemma iterate_edges_short self r self' :
  (forall u v, (ltlrrg.metric self u v == ltlrrg.metric self v u)%Q) ->
  ltlrrg.edges_short self -> ltlrrg.iterate self = (r, self') ->
  ltlrrg.edges_short self'.
Proof.
  intros Hsym Hc Hit u v Huv.
  destruct (iterate_nodes self r self' Hit) as (Hrobot & Heta & _).
  destruct (iterate_edges self r self' Hit) as (_ & _ & Hall).
  unfold ltlrrg.metric. rewrite Hrobot, Heta. fold (ltlrrg.metric self u v).
  destruct (Hall u v Huv) as [Hold|(_ & _ & _ & [?|?])]; [by apply Hc|done|].
  by rewrite Hsym.
Qed.

(** X4: along a run, every edge of the transition system joins two of its
    vertices: the planner never stages an edge to a configuration it does
    not also add. *)
Theorem reachable_edges_closed start self :
  ltlrrg.edges_closed start ->
  ltlrrg.reachable start self ->
  ltlrrg.edges_closed self.
Proof.
  intros Hstart Hreach.
  induction Hreach as [|self r self' _ IH Hit|self i _ IH];
    [done| |exact IH].
  by apply (iterate_edges_closed self r self').
Qed.

(** X5: along a run, every edge of the transition system is a simple
    segment for the robot: both phases test [isSimpleSegment] before they
    stage an edge. *)
Theorem reachable_edges_simple start self :
  ltlrrg.edges_simple start ->
  ltlrrg.reachable start self ->
  ltlrrg.edges_simple self.
Proof.
  intros Hstart Hreach.
  induction Hreach as [|self r self' _ IH Hit|self i _ IH];
    [done| |exact IH].
  by apply (iterate_edges_simple self r self').
Qed.

(** X6: with a symmetric metric, along a run every edge of the transition
    system is shorter than [eta_hi]. *)
Theorem reachable_edges_short start self :
  (forall u v, (ltlrrg.metric start u v == ltlrrg.metric start v u)%Q) ->
  ltlrrg.edges_short start ->
  ltlrrg.reachable start self ->
  ltlrrg.edges_short self.
Proof.
  intros Hsym Hstart Hreach.
  induction Hreach as [|self r self' Hreach IH Hit|self i _ IH];
    [done| |exact IH].
  apply (iterate_edges_short self r self'); [|done|done].
  intros u v. unfold ltlrrg.metric.
  destruct (reachable_robot start self Hreach) as [-> _]. apply Hsym.
Qed.

(** The planner that [__init__] builds has no edge. *)
Lemma init_no_edges (robot : robots.Robot Conf RNG Region) (checker : PA)
    (iterations : Z) (g : RNG) (e : Q * Q) :
  models.g_edges
    (ltlrrg.ts (ltlrrg.set_eta (ltlrrg.init robot checker iterations g) e))
  = ∅.
Proof. reflexivity. Qed.

(** X7: when [eta_lo] is not negative, every vertex that [far] proposes for
    the forward phase is also a candidate of [near] for the backward
    phase. *)
Theorem far_subset_near self (p x : Conf) :
  (0 <= (ltlrrg.eta self).1)%Q ->
  x ∈ ltlrrg.far self p -> x ∈ ltlrrg.near self p.
Proof.
  intros Hlo (Hin & Hhi & Hall)%far_elem_of. apply near_elem_of.
  split; [done|]. split; [|done].
  eapply Qle_lt_trans; [exact Hlo|]. by apply Hall.
Qed.

(** X8: rejection sampling.  When the configuration steered from the
    nearest vertex towards the sample has a vertex within [eta_hi] that is
    at most [eta_lo] away, the call leaves the transition system as it
    was. *)
Theorem iterate_rejects_close_sample self (rand c v : Conf) (g : RNG) :
  robots.sample (ltlrrg.robot self) (ltlrrg.random_state self) = (rand, g) ->
  ltlrrg.nearest (ltlrrg.set_random_state self g) rand = Ok c ->
  v ∈ dom (models.g_node (ltlrrg.ts self)) ->
  (ltlrrg.metric self v (robots.steer (ltlrrg.robot self) c rand None)
   < (ltlrrg.eta self).2)%Q ->
  (ltlrrg.metric self v (robots.steer (ltlrrg.robot self) c rand None)
   <= (ltlrrg.eta self).1)%Q ->
  ltlrrg.ts (ltlrrg.iterate self).2 = ltlrrg.ts self.
Proof.
  intros Hsample Hnear Hv Hhi Hlo. unfold ltlrrg.iterate.
  destruct (product.foundPolicy (ltlrrg.checker self)); simpl; [done|].
  rewrite Hsample, Hnear.
  rewrite (far_rejects (ltlrrg.set_random_state self g) _ v Hv Hhi Hlo).
  cbn [foldl]. simpl. rewrite map_to_list_empty. simpl.
  assert (Hts : forall t : models.TS Conf,
            models.addTransitions t ∅ = t).
  { intros [n ed i]. unfold models.addTransitions. simpl.
    by rewrite (right_id_L ∅ (∪)). }
  destruct (product.buchi_has_edges _); simpl; by rewrite !Hts.
Qed.

Lemma reachable_trans self1 self2 self3 :
  ltlrrg.reachable self1 self2 -> ltlrrg.reachable self2 self3 ->
  ltlrrg.reachable self1 self3.
Proof.
  intros H12 H23. induction H23 as [|s r s' _ IH Hit|s i _ IH]; [done| |].
  - by eapply ltlrrg.reachable_iterate.
  - by apply ltlrrg.reachable_counter.
Qed.

(** X9: [solve] does nothing but set the loop counter and call [iterate]:
    the planner it leaves, with a value or an exception, is one that a run
    from the given planner reaches. *)
Theorem solve_reachable self :
  ltlrrg.reachable self (ltlrrg.solve self).2.
Proof.
  unfold ltlrrg.solve. generalize (seqZ 1 (ltlrrg.maxIterations self)).
  intros its. revert self.
  induction its as [|i its IH]; intros self; cbn [ltlrrg.solve_loop].
  - apply ltlrrg.reachable_start.
  - destruct (ltlrrg.iterate (ltlrrg.set_iteration self i)) as [r self1]
      eqn:Hit.
    assert (Hstep : ltlrrg.reachable self self1).
    { eapply ltlrrg.reachable_iterate; [|exact Hit].
      apply ltlrrg.reachable_counter, ltlrrg.reachable_start. }
    destruct r as [[|]|e]; [exact Hstep| |exact Hstep].
    eapply reachable_trans; [exact Hstep|apply IH].
Qed.
End RRGGrowth.

Section RunRRGGrowth.
Lemma planner_line_edges_closed :
  ltlrrg.edges_closed (example.planner_line 3).
Proof. intros u v Huv. simpl in Huv. by apply not_elem_of_empty in Huv. Defined.

Lemma planner_line_edges_simple :
  ltlrrg.edges_simple (example.planner_line 3).
Proof. intros u v Huv. simpl in Huv. by apply not_elem_of_empty in Huv. Defined.

Lemma planner_line_edges_short :
  ltlrrg.edges_short (example.planner_line 3).
Proof. intros u v Huv. simpl in Huv. by apply not_elem_of_empty in Huv. Defined.

Example planner_line_2_edges :
  elements (models.g_edges (ltlrrg.ts example.planner_line_2))
  = [(0, 2); (2, 0)].
Proof. vm_compute. reflexivity. Qed.

Lemma reachable_edges_closed_witness :
  ltlrrg.edges_closed (example.planner_line 3)
  /\ ltlrrg.reachable (example.planner_line 3) example.planner_line_2
  /\ ltlrrg.edges_closed example.planner_line_2.
Proof.
  split; [exact planner_line_edges_closed|].
  split; [exact planner_line_reachable|].
  exact (reachable_edges_closed (example.planner_line 3)
           example.planner_line_2 planner_line_edges_closed
           planner_line_reachable).
Defined.

Lemma reachable_edges_simple_witness :
  ltlrrg.edges_simple (example.planner_line 3)
  /\ ltlrrg.reachable (example.planner_line 3) example.planner_line_2
  /\ ltlrrg.edges_simple example.planner_line_2.
Proof.
  split; [exact planner_line_edges_simple|].
  split; [exact planner_line_reachable|].
  exact (reachable_edges_simple (example.planner_line 3)
           example.planner_line_2 planner_line_edges_simple
           planner_line_reachable).
Defined.

Lemma reachable_edges_short_witness :
  (forall u v, (ltlrrg.metric (example.planner_line 3) u v
                == ltlrrg.metric (example.planner_line 3) v u)%Q)
  /\ ltlrrg.edges_short (example.planner_line 3)
  /\ ltlrrg.reachable (example.planner_line 3) example.planner_line_2
  /\ ltlrrg.edges_short example.planner_line_2.
Proof.
  split; [exact metric_line_sym|].
  split; [exact planner_line_edges_short|].
  split; [exact planner_line_reachable|].
  exact (reachable_edges_short (example.planner_line 3)
           example.planner_line_2 metric_line_sym planner_line_edges_short
           planner_line_reachable).
Defined.

Lemma far_subset_near_witness :
  (0 <= (ltlrrg.eta example.planner_line_1).1)%Q
  /\ 0 ∈ ltlrrg.far example.planner_line_1 2
  /\ 0 ∈ ltlrrg.near example.planner_line_1 2.
Proof.
  assert (Hlo : (0 <= (ltlrrg.eta example.planner_line_1).1)%Q)
    by (apply Qle_bool_iff; vm_compute; reflexivity).
  assert (Hfar : 0 ∈ ltlrrg.far example.planner_line_1 2).
  { replace (ltlrrg.far example.planner_line_1 2) with [0]
      by (vm_compute; reflexivity).
    by left. }
  split; [exact Hlo|]. split; [exact Hfar|].
  exact (far_subset_near example.planner_line_1 2 0 Hlo Hfar).
Defined.

Lemma iterate_rejects_close_sample_witness :
  robots.sample (ltlrrg.robot (example.planner_line 3))
    (ltlrrg.random_state (example.planner_line 3)) = (0, 1%nat)
  /\ ltlrrg.nearest (ltlrrg.set_random_state (example.planner_line 3) 1%nat) 0
     = Ok 0
  /\ ltlrrg.ts (ltlrrg.iterate (example.planner_line 3)).2
     = ltlrrg.ts (example.planner_line 3).
Proof.
  assert (Hs : robots.sample (ltlrrg.robot (example.planner_line 3))
                 (ltlrrg.random_state (example.planner_line 3))
               = (0, 1%nat)) by reflexivity.
  assert (Hn : ltlrrg.nearest
                 (ltlrrg.set_random_state (example.planner_line 3) 1%nat) 0
               = Ok 0) by (vm_compute; reflexivity).
  split; [exact Hs|]. split; [exact Hn|].
  refine (iterate_rejects_close_sample (example.planner_line 3) 0 0 0 1%nat
            Hs Hn _ _ _).
  - simpl. rewrite insert_empty, dom_singleton_L. by apply elem_of_singleton.
  - apply Qlt_bool_iff. vm_compute. reflexivity.
  - apply Qle_bool_iff. vm_compute. reflexivity.
Defined.
End RunRRGGrowth.

(** ** The local planner: errors and choices *)

Section MinKeyErrors.
Context {A K : Type} (ltb : K -> K -> bool) (key : A -> result K).

Lemma min_from_ok_inv (l : list A) (best m : A) (kbest : K) :
  min_from ltb key best kbest l = Ok m ->
  Forall (fun x => is_ok (key x)) l.
Proof.
  revert best kbest. induction l as [|x l IH]; intros best kbest; simpl;
    [by constructor|].
  destruct (key x) as [kx|e] eqn:Ekx; simpl; [|done].
  destruct (ltb kx kbest); intros Hm%IH; constructor; by rewrite ?Ekx.
Qed.

Lemma min_key_ok_inv (l : list A) (m : A) :
  min_key ltb key l = Ok m -> Forall (fun x => is_ok (key x)) l.
Proof.
  destruct l as [|x l]; simpl; [done|].
  destruct (key x) as [kx|e] eqn:Ekx; simpl; [|done].
  intros Hm%min_from_ok_inv. constructor; by rewrite ?Ekx.
Qed.

Lemma min_from_raise_inv (l : list A) (best : A) (kbest : K) e :
  min_from ltb key best kbest l = Raise e ->
  exists x, x ∈ l /\ key x = Raise e.
Proof.
  revert best kbest. induction l as [|x l IH]; intros best kbest; simpl;
    [done|].
  destruct (key x) as [kx|e'] eqn:Ekx; simpl.
  - destruct (ltb kx kbest); intros (y & ? & ?)%IH; exists y;
      (split; [by right|done]).
  - intros [= ->]. exists x. split; [by left|done].
Qed.

Lemma min_key_raise_inv (l : list A) e :
  min_key ltb key l = Raise e ->
  (l = [] /\ e = ValueError) \/ exists x, x ∈ l /\ key x = Raise e.
Proof.
  destruct l as [|x l]; simpl; [intros [= <-]; by left|].
  destruct (key x) as [kx|e'] eqn:Ekx; simpl.
  - intros (y & ? & ?)%min_from_raise_inv. right. exists y.
    split; [by right|done].
  - intros [= ->]. right. exists x. split; [by left|done].
Qed.
End MinKeyErrors.

Section LocalPlannerMore.
Context {Conf BState RNG Region : Type}.
Context `{Countable Conf, Countable BState, EqDecision Region}.
Implicit Types (self : localrrt.LocalPlanner Conf BState RNG Region).
Implicit Types (pa : localrrt.Product Conf BState) (B : gset BState).

(** X10: [get_actual_potential] returns a value exactly when [x] is a key
    of [pa.proj_ts] and every product state [(x, q)], [q] in
    [proj_ts[x] ∩ B], has a stored potential; otherwise the exception is a
    [KeyError]. *)
Theorem get_actual_potential_raises (x : Conf) B pa :
  match localrrt.get_actual_potential x B pa with
  | Ok _ =>
      exists bs, localrrt.proj_ts pa !! x = Some bs
        /\ forall q, q ∈ bs ∩ B ->
             is_Some (localrrt.node_potential pa !! (x, q))
  | Raise e =>
      e = KeyError
      /\ (localrrt.proj_ts pa !! x = None
          \/ exists bs q, localrrt.proj_ts pa !! x = Some bs /\ q ∈ bs ∩ B
               /\ localrrt.node_potential pa !! (x, q) = None)
  end.
Proof.
  unfold localrrt.get_actual_potential, getitem.
  destruct (localrrt.proj_ts pa !! x) as [bs|] eqn:Hx; simpl; [|by auto].
  remember ((fun q => (x, q)) <$> elements (bs ∩ B)) as l eqn:El.
  assert (Hl : forall s, s ∈ l <-> exists q, s = (x, q) /\ q ∈ bs ∩ B).
  { intros s. rewrite El, list_elem_of_fmap.
    by setoid_rewrite elem_of_elements. }
  assert (Hkey : forall s e,
            localrrt.potential_of pa s = Raise e ->
            e = KeyError /\ localrrt.node_potential pa !! s = None).
  { intros s e. unfold localrrt.potential_of, getitem.
    destruct (localrrt.node_potential pa !! s); [done|].
    by intros [= <-]. }
  clear El. destruct l as [|s0 l0].
  { exists bs. split; [done|]. intros q Hq.
    assert (Hin : (x, q) ∈ @nil (Conf * BState)) by (apply Hl; eauto).
    by apply elem_of_nil in Hin. }
  cbv beta iota. unfold mbind, result_bind.
  destruct (min_key pot_ltb (localrrt.potential_of pa) (s0 :: l0))
    as [m|e] eqn:Hmin; cbn [bind].
  - pose proof (min_key_ok_inv _ _ _ _ Hmin) as Hok.
    rewrite Forall_forall in Hok.
    assert (Hall : forall q, q ∈ bs ∩ B ->
              is_Some (localrrt.node_potential pa !! (x, q))).
    { intros q Hq. assert (Hin : (x, q) ∈ s0 :: l0) by (apply Hl; eauto).
      specialize (Hok _ Hin). unfold localrrt.potential_of, getitem in Hok.
      destruct (localrrt.node_potential pa !! (x, q)); [by eexists|done]. }
    destruct (localrrt.potential_of pa m) as [p|e] eqn:Hm; [by exists bs|].
    apply Hkey in Hm as [-> Hm]. split; [done|]. right.
    assert (Hmin' : m ∈ s0 :: l0).
    { destruct (min_key_spec pot_ltb (localrrt.potential_of pa) pot_le
                  pot_le_refl pot_le_trans pot_ltb_true pot_ltb_false
                  (s0 :: l0))
        as (m' & km & Hmin' & Hm' & _); [done|by apply Forall_forall|].
      rewrite Hmin in Hmin'. by injection Hmin' as ->. }
    apply Hl in Hmin' as (q & -> & Hq). by exists bs, q.
  - apply min_key_raise_inv in Hmin as [[Hnil _]|(s & Hs & He)]; [done|].
    apply Hkey in He as [-> He]. split; [done|]. right.
    apply Hl in Hs as (q & -> & Hq). by exists bs, q.
Qed.

Lemma elem_of_out_edges_iter pa (nbunch : list (Conf * BState))
    (u v : Conf * BState) :
  (u, v) ∈ localrrt.out_edges_iter pa nbunch
  <-> u ∈ nbunch /\ exists vs, localrrt.succ pa !! u = Some vs /\ v ∈ vs.
Proof.
  unfold localrrt.out_edges_iter. rewrite list_elem_of_bind. split.
  - intros (w & Huv & Hw). destruct (localrrt.succ pa !! w) as [vs|] eqn:Ew;
      [|by apply elem_of_nil in Huv].
    apply list_elem_of_fmap in Huv as (v' & [= -> ->] & Hv). eauto.
  - intros (Hu & vs & Hvs & Hv). exists u. split; [|done].
    rewrite Hvs. apply list_elem_of_fmap. eauto.
Qed.

(** X11: a dead end.  When no product state [(state, q)], [q] in the
    current Buchi set, has an outgoing edge, the unpacking of the
    transposed edge sequence fails and the call raises [ValueError]. *)
Theorem min_potential_global_state_dead_end self (state : Conf) B :
  last_item (localrrt.buchi_states self) = Ok B ->
  (forall q, q ∈ B ->
     localrrt.succ (localrrt.pa self) !! (state, q) = None
     \/ localrrt.succ (localrrt.pa self) !! (state, q) = Some []) ->
  localrrt.min_potential_global_state self state = Raise ValueError.
Proof.
  intros HB Hdead. unfold localrrt.min_potential_global_state.
  rewrite HB. simpl.
  assert (Hnone : localrrt.out_edges_iter (localrrt.pa self)
                    ((fun q => (state, q)) <$> elements B) = []).
  { destruct (localrrt.out_edges_iter _ _) as [|[u v] l] eqn:El; [done|].
    assert (Hin : (u, v) ∈ localrrt.out_edges_iter (localrrt.pa self)
                    ((fun q => (state, q)) <$> elements B))
      by (rewrite El; by left).
    apply elem_of_out_edges_iter in Hin as (Hu & vs & Hvs & Hv).
    apply list_elem_of_fmap in Hu as (q & -> & Hq%elem_of_elements).
    destruct (Hdead q Hq) as [Hn|Hn]; rewrite Hn in Hvs; [done|].
    injection Hvs as <-. by apply elem_of_nil in Hv. }
  by rewrite Hnone.
Qed.

(** X12: when the call returns a configuration, it is the TS component of
    a product successor of some [(state, q)], [q] in the current Buchi set,
    whose stored potential no other such successor undercuts; and the
    planner was not in the tie of a zero current and a zero best
    potential. *)
Theorem min_potential_global_state_returns self (state x : Conf) :
  localrrt.min_potential_global_state self state = Ok x ->
  exists B q q' vs p cur,
    last_item (localrrt.buchi_states self) = Ok B
    /\ q ∈ B
    /\ localrrt.succ (localrrt.pa self) !! (state, q) = Some vs
    /\ (x, q') ∈ vs
    /\ localrrt.node_potential (localrrt.pa self) !! (x, q') = Some p
    /\ (forall q2 vs2 s p2, q2 ∈ B ->
          localrrt.succ (localrrt.pa self) !! (state, q2) = Some vs2 ->
          s ∈ vs2 ->
          localrrt.node_potential (localrrt.pa self) !! s = Some p2 ->
          pot_le p p2)
    /\ last_item (localrrt.potential self) = Ok cur
    /\ pot_is_zero cur && pot_is_zero p = false.
Proof.
  unfold localrrt.min_potential_global_state.
  destruct (last_item (localrrt.buchi_states self)) as [B|] eqn:HB;
    simpl; [|done].
  set (edges := localrrt.out_edges_iter _ _).
  assert (Hedges : forall u v, (u, v) ∈ edges <->
            u ∈ (fun q => (state, q)) <$> elements B
            /\ exists vs, localrrt.succ (localrrt.pa self) !! u = Some vs
                 /\ v ∈ vs) by (intros; apply elem_of_out_edges_iter).
  assert (Htargets : forall v, v ∈ edges.*2 <-> exists u, (u, v) ∈ edges).
  { intros v. rewrite list_elem_of_fmap. split.
    - intros ([u v'] & -> & Hin). by exists u.
    - intros (u & Hin). by exists (u, v). }
  clearbody edges. unfold localrrt.unzip_targets, mbind, result_bind.
  destruct edges as [|e0 edges0]; cbn [bind]; [done|].
  set (targets := (e0 :: edges0).*2) in *.
  destruct (min_key pot_ltb (localrrt.potential_of (localrrt.pa self))
              targets) as [opt|] eqn:Hmin; cbn [bind]; [|done].
  destruct (last_item (localrrt.potential self)) as [cur|] eqn:Hcur;
    cbn [bind]; [|done].
  pose proof (min_key_ok_inv _ _ _ _ Hmin) as Hok.
  destruct (min_key_spec pot_ltb (localrrt.potential_of (localrrt.pa self))
              pot_le pot_le_refl pot_le_trans pot_ltb_true pot_ltb_false
              targets) as (m & p & Hmin' & Hm & Hp & Hall); [done|done|].
  rewrite Hmin in Hmin'. injection Hmin' as <-.
  destruct (if pot_is_zero cur then _ else _) as [zt|] eqn:Hzt; cbn [bind];
    [|done].
  assert (Hzero : zt = pot_is_zero cur && pot_is_zero p).
  { revert Hzt. destruct (pot_is_zero cur); [|by intros [= <-]].
    rewrite Hp. simpl. by intros [= <-]. }
  rewrite Hzero. destruct (pot_is_zero cur && pot_is_zero p) eqn:Htie;
    [done|]. intros [= <-].
  apply Htargets in Hm as (u & Hu). apply Hedges in Hu as (Hu & vs & Hvs & Hv).
  apply list_elem_of_fmap in Hu as (q & -> & Hq%elem_of_elements).
  destruct opt as [x q']. simpl.
  unfold localrrt.potential_of, getitem in Hp.
  destruct (localrrt.node_potential (localrrt.pa self) !! (x, q'))
    as [p'|] eqn:Hp'; [|done]. injection Hp as ->.
  exists B, q, q', vs, p, cur. repeat (split; [done|]).
  split; [|done].
  intros q2 vs2 s p2 Hq2 Hvs2 Hs Hp2. apply (Hall s).
  - apply Htargets. exists (state, q2). apply Hedges. split.
    + apply list_elem_of_fmap. exists q2. by rewrite elem_of_elements.
    + eauto.
  - unfold localrrt.potential_of, getitem. by rewrite Hp2.
Qed.

(** X13: when [check_local_plan] answers [True], the pending plan is a
    non-empty list whose last configuration is a vertex of the global
    transition system, and the call did not touch it: taking its first
    element afterwards cannot fail. *)
Theorem check_local_plan_true_plan self :
  (localrrt.check_local_plan self).1 = Ok true ->
  exists plan last_conf,
    localrrt.local_plan self = Some plan
    /\ localrrt.local_plan (localrrt.check_local_plan self).2 = Some plan
    /\ plan <> []
    /\ last plan = Some last_conf
    /\ last_conf ∈ dom (models.g_node (localrrt.ts self)).
Proof.
  assert (Hhit : forall s : localrrt.LocalPlanner Conf BState RNG Region,
            localrrt.local_plan_hit s = Ok true
            \/ localrrt.check_plan_collision s = Ok true ->
            exists plan last_conf,
              localrrt.local_plan s = Some plan /\ plan <> []
              /\ last plan = Some last_conf
              /\ last_conf ∈ dom (models.g_node (localrrt.ts s))).
  { intros s Hs.
    assert (Hshape : exists plan last_conf,
              localrrt.local_plan s = Some plan /\ plan <> []
              /\ last_item plan = Ok last_conf
              /\ models.has_node (localrrt.ts s) last_conf = true).
    { unfold localrrt.local_plan_hit, localrrt.check_plan_collision in Hs.
      destruct (localrrt.local_plan s) as [[|c plan]|] eqn:Eplan;
        simpl in Hs; [by destruct Hs|..|by destruct Hs].
      set (full := c :: plan) in *.
      destruct (last_item full) as [lc|] eqn:Elast; simpl in Hs;
        [|by destruct Hs].
      destruct (models.has_node (localrrt.ts s) lc) eqn:Enode; simpl in Hs;
        [|by destruct Hs].
      by exists full, lc. }
    destruct Hshape as (plan & lc & Hplan & Hne & Hlast & Hnode).
    exists plan, lc. split; [done|]. split; [done|]. split.
    - unfold last_item in Hlast. destruct (last plan); by inversion Hlast.
    - unfold models.has_node in Hnode. by apply bool_decide_eq_true in Hnode. }
  unfold localrrt.check_local_plan.
  destruct (localrrt.truthy (localrrt.requests self)).
  - destruct (min_key _ _ _) as [highest|e]; [|done].
    destruct (localrrt.tracking_req self) as [tr|];
      [destruct (_ >? _)|]; simpl; intros Hr;
      destruct (Hhit _ (or_introl Hr)) as (plan & lc & ? & ? & ? & ?);
      by exists plan, lc.
  - destruct (localrrt.tracking_req self) as [tr|];
      [destruct (bool_decide _)|]; simpl; intros Hr;
      destruct (Hhit _ (or_intror Hr)) as (plan & lc & ? & ? & ? & ?);
      by exists plan, lc.
Qed.

(** X14: choice of the tracked request.  With requests present and a
    tracked request that is absent or still among them, the call ends up
    tracking a request of least priority and answers what [local_plan_hit]
    says for it; a tracked request that is already of least priority is
    kept, also against other requests of the same priority. *)
Theorem check_local_plan_request_choice self :
  localrrt.requests self <> [] ->
  (forall tr, localrrt.tracking_req self = Some tr ->
              tr ∈ localrrt.requests self) ->
  exists req,
    localrrt.tracking_req (localrrt.check_local_plan self).2 = Some req
    /\ req ∈ localrrt.requests self
    /\ (forall r, r ∈ localrrt.requests self ->
          localrrt.priority req <= localrrt.priority r)
    /\ (forall tr, localrrt.tracking_req self = Some tr ->
          (forall r, r ∈ localrrt.requests self ->
             localrrt.priority tr <= localrrt.priority r) ->
          req = tr)
    /\ (localrrt.check_local_plan self).1
       = localrrt.local_plan_hit (localrrt.check_local_plan self).2.
Proof.
  intros Hne Htr. unfold localrrt.check_local_plan.
  destruct (localrrt.requests self) as [|r0 rs] eqn:Ereq; [done|].
  cbn [localrrt.truthy]. rewrite <- Ereq in *.
  destruct (min_key_spec Z.ltb
              (fun req : localrrt.Request Region =>
                 Ok (localrrt.priority req))
              Z.le Z.le_refl Z.le_trans
              (fun a b Hab => Z.lt_le_incl _ _ (proj1 (Z.ltb_lt a b) Hab))
              (fun a b Hab => proj1 (Z.ltb_ge a b) Hab)
              (localrrt.requests self))
    as (m & km & Hmin & Hm & Hkm & Hall);
    [by rewrite Ereq|by apply Forall_forall|].
  injection Hkm as <-.
  assert (Hleast : forall r, r ∈ localrrt.requests self ->
            localrrt.priority m <= localrrt.priority r)
    by (intros r Hr; by apply (Hall r)).
  rewrite Hmin.
  destruct (localrrt.tracking_req self) as [tr|] eqn:Etr.
  - destruct (localrrt.priority tr >? localrrt.priority m) eqn:Egt; simpl.
    + exists m. repeat (split; [done|]). split; [|done].
      intros tr' [= <-] Hmin_tr. rewrite Z.gtb_ltb in Egt.
      apply Z.ltb_lt in Egt. specialize (Hmin_tr m Hm). lia.
    + exists tr. rewrite Etr. split; [done|].
      assert (Hin : tr ∈ localrrt.requests self) by by apply Htr.
      split; [done|]. split; [|split; [by intros tr' [= <-]|done]].
      intros r Hr. rewrite Z.gtb_ltb in Egt. apply Z.ltb_ge in Egt.
      specialize (Hleast r Hr). lia.
  - simpl. exists m. by repeat (split; [done|]).
Qed.
End LocalPlannerMore.

Section MonitorMore.
Context {BState : Type} `{Countable BState}.
Implicit Types (B : gset BState) (buchi : localrrt.Buchi BState).
Implicit Types (sigma : Props).

(** X15: without a stop proposition the half-monitor always computes the
    successors, whatever the start proposition: a state is in the result
    exactly when [next_states] yields it, for the missing proposition, from
    some start state. *)
Theorem monitor_forced B buchi sigma (q' : BState) :
  q' ∈ localrrt.monitor B buchi sigma None
  <-> exists q, q ∈ B /\ q' ∈ localrrt.next_states buchi q None.
Proof.
  unfold localrrt.monitor. rewrite bool_decide_eq_false_2 by done.
  rewrite elem_of_monitor_loop. split.
  - intros [?|(q & ?%elem_of_elements & ?)]; [set_solver|eauto].
  - intros (q & ? & ?). right. exists q. by rewrite elem_of_elements.
Qed.

End MonitorMore.

Section RunLocalPlannerMore.
Lemma min_potential_global_state_dead_end_witness :
  last_item (localrrt.buchi_states example.planner_at_start)
  = Ok {[0%nat; 1%nat]}
  /\ localrrt.min_potential_global_state example.planner_at_start 9
     = Raise ValueError.
Proof.
  assert (HB : last_item (localrrt.buchi_states example.planner_at_start)
               = Ok {[0%nat; 1%nat]}) by reflexivity.
  split; [exact HB|].
  refine (min_potential_global_state_dead_end example.planner_at_start 9
            {[0%nat; 1%nat]} HB _).
  intros q Hq. left.
  assert (Hcases : q = 0%nat \/ q = 1%nat) by (clear HB; set_solver).
  destruct Hcases as [-> | ->]; reflexivity.
Defined.

Lemma min_potential_global_state_returns_witness :
  localrrt.min_potential_global_state example.planner_at_start 0 = Ok 5
  /\ exists B q q' vs p cur,
       last_item (localrrt.buchi_states example.planner_at_start) = Ok B
       /\ q ∈ B
       /\ localrrt.succ (localrrt.pa example.planner_at_start) !! (0, q)
          = Some vs
       /\ (5, q') ∈ vs
       /\ localrrt.node_potential (localrrt.pa example.planner_at_start)
            !! (5, q') = Some p
       /\ (forall q2 vs2 s p2, q2 ∈ B ->
             localrrt.succ (localrrt.pa example.planner_at_start) !! (0, q2)
               = Some vs2 ->
             s ∈ vs2 ->
             localrrt.node_potential (localrrt.pa example.planner_at_start)
               !! s = Some p2 ->
             pot_le p p2)
       /\ last_item (localrrt.potential example.planner_at_start) = Ok cur
       /\ pot_is_zero cur && pot_is_zero p = false.
Proof.
  assert (Hret : localrrt.min_potential_global_state
                   example.planner_at_start 0 = Ok 5)
    by (vm_compute; reflexivity).
  split; [exact Hret|].
  exact (min_potential_global_state_returns example.planner_at_start 0 5
           Hret).
Defined.

Lemma check_local_plan_true_plan_witness :
  (localrrt.check_local_plan
     (localrrt.set_tracking_req (example.planner_tracking [example.fire])
        (Some example.fire))).1 = Ok true
  /\ exists plan last_conf,
       localrrt.local_plan
         (localrrt.set_tracking_req (example.planner_tracking [example.fire])
            (Some example.fire)) = Some plan
       /\ localrrt.local_plan
            (localrrt.check_local_plan
               (localrrt.set_tracking_req
                  (example.planner_tracking [example.fire])
                  (Some example.fire))).2 = Some plan
       /\ plan <> []
       /\ last plan = Some last_conf
       /\ last_conf
            ∈ dom (models.g_node
                     (localrrt.ts
                        (localrrt.set_tracking_req
                           (example.planner_tracking [example.fire])
                           (Some example.fire)))).
Proof.
  assert (Htrue : (localrrt.check_local_plan
                     (localrrt.set_tracking_req
                        (example.planner_tracking [example.fire])
                        (Some example.fire))).1 = Ok true)
    by (vm_compute; reflexivity).
  split; [exact Htrue|].
  exact (check_local_plan_true_plan _ Htrue).
Defined.

Lemma check_local_plan_request_choice_witness :
  localrrt.requests
    (localrrt.set_tracking_req
       (example.planner_tracking [example.fire; example.survivor])
       (Some example.fire)) <> []
  /\ exists req,
       localrrt.tracking_req
         (localrrt.check_local_plan
            (localrrt.set_tracking_req
               (example.planner_tracking [example.fire; example.survivor])
               (Some example.fire))).2 = Some req
       /\ req ∈ [example.fire; example.survivor]
       /\ localrrt.priority req <= localrrt.priority example.fire.
Proof.
  assert (Hne : localrrt.requests
                  (localrrt.set_tracking_req
                     (example.planner_tracking
                        [example.fire; example.survivor])
                     (Some example.fire)) <> []) by done.
  split; [exact Hne|].
  destruct (check_local_plan_request_choice
              (localrrt.set_tracking_req
                 (example.planner_tracking [example.fire; example.survivor])
                 (Some example.fire)) Hne)
    as (req & Hreq & Hin & Hleast & _).
  - intros tr [= <-]. by left.
  - exists req. split; [exact Hreq|]. split; [exact Hin|].
    apply Hleast. by left.
Defined.
End RunLocalPlannerMore.

(** ** Boxes: containment, sampling and bounding boxes *)

Section Boxes.
Local Open Scope Q_scope.
Implicit Types (b : maps2d.BoxBoundary2D) (src dest p : maps2d.Point2D).

Lemma box_init_inv (ranges : list (list Q)) b :
  maps2d.BoxBoundary2D_init ranges = Ok b ->
  ranges = maps2d.boundingBox b
  /\ (maps2d.xrange b).1 <= (maps2d.xrange b).2
  /\ (maps2d.yrange b).1 <= (maps2d.yrange b).2.
Proof.
  unfold maps2d.BoxBoundary2D_init.
  destruct ranges as [|[|xl [|xh [|? ?]]] [|[|yl [|yh [|? ?]]] [|? ?]]];
    try done.
  destruct (Qle_bool xl xh && Qle_bool yl yh) eqn:E; [|done].
  apply andb_true_iff in E as [?%Qle_bool_iff ?%Qle_bool_iff].
  by intros [= <-].
Qed.

Lemma point_inside_iff b p :
  maps2d.intersects b p None = true
  <-> ((maps2d.xrange b).1 <= maps2d.x p /\ maps2d.x p <= (maps2d.xrange b).2)
      /\ ((maps2d.yrange b).1 <= maps2d.y p
          /\ maps2d.y p <= (maps2d.yrange b).2).
Proof.
  unfold maps2d.intersects. by rewrite andb_true_iff, !in_range_iff.
Qed.

(** X17: the box is convex for [contains]: it answers [True] exactly when
    every point of the segment from [src] to [dest] passes the point
    test. *)
Theorem box_contains_segment b src dest :
  maps2d.contains b src dest = true
  <-> forall t, 0 <= t -> t <= 1 ->
        maps2d.intersects b (maps2d.along src dest t) None = true.
Proof.
  unfold maps2d.contains. rewrite andb_true_iff, !point_inside_iff. split.
  - intros [[[? ?] [? ?]] [[? ?] [? ?]]] t Ht0 Ht1.
    apply point_inside_iff. simpl. repeat split; nra.
  - intros Hall.
    pose proof (proj1 (point_inside_iff _ _) (Hall 0 ltac:(lra) ltac:(lra)))
      as [[? ?] [? ?]].
    pose proof (proj1 (point_inside_iff _ _) (Hall 1 ltac:(lra) ltac:(lra)))
      as [[? ?] [? ?]].
    simpl in *. repeat split; lra.
Qed.

(** X18: construction and [boundingBox] are inverse to each other: a
    constructed box hands back the ranges it was built from, and building a
    box from them again gives the same box. *)
Theorem box_boundingBox_round_trip (ranges : list (list Q)) b :
  maps2d.BoxBoundary2D_init ranges = Ok b ->
  maps2d.boundingBox b = ranges
  /\ maps2d.BoxBoundary2D_init (maps2d.boundingBox b) = Ok b.
Proof.
  intros Hinit. destruct (box_init_inv ranges b Hinit) as (-> & _).
  done.
Qed.




(** *** Segments that the clipping of [intersects] handles *)





End Boxes.

Section RunBoxes.
Local Open Scope Q_scope.

Lemma unit_box_init :
  maps2d.BoxBoundary2D_init [[0; 1]; [0; 1]] = Ok example.unit_box.
Proof. reflexivity. Defined.

Lemma box_boundingBox_round_trip_witness :
  maps2d.BoxBoundary2D_init [[0; 1]; [0; 1]] = Ok example.unit_box
  /\ maps2d.boundingBox example.unit_box = [[0; 1]; [0; 1]]
  /\ maps2d.BoxBoundary2D_init (maps2d.boundingBox example.unit_box)
     = Ok example.unit_box.
Proof.
  split; [exact unit_box_init|].
  exact (box_boundingBox_round_trip [[0; 1]; [0; 1]] example.unit_box
           unit_box_init).
Defined.








Example intersects_vertical_miss :
  maps2d.intersects example.unit_box (example.point 2 (-1))
    (Some (example.point 2 2)) = false.
Proof. reflexivity. Qed.
End RunBoxes.

(** ** The workspace: regions and their symbols *)

Section WorkspaceProps.
Context {Region Position Geometry : Type} `{Countable Geometry}.
Context `{!base.RegionOps Region Position Geometry}.
Implicit Types (ws : base.Workspace Region Geometry) (r : Region).
Implicit Types (l : list Region) (s : gmap Geometry Region).

Lemma elem_of_chain_symbols l (a : string) :
  a ∈ base.chain_symbols l <-> exists r, r ∈ l /\ a ∈ base.symbols r.
Proof.
  unfold base.chain_symbols. rewrite elem_of_union_list. split.
  - intros (X & (r & -> & Hr)%list_elem_of_fmap & Ha). eauto.
  - intros (r & Hr & Ha). exists (base.symbols r). split; [|done].
    apply list_elem_of_fmap. eauto.
Qed.

Lemma chain_symbols_mono l l' :
  (forall r, r ∈ l -> r ∈ l') ->
  base.chain_symbols l ⊆ base.chain_symbols l'.
Proof.
  intros Hsub a (r & Hr & Ha)%elem_of_chain_symbols.
  apply elem_of_chain_symbols. eauto.
Qed.

Lemma elem_of_set_iter s r :
  r ∈ base.set_iter s <-> exists k, s !! k = Some r.
Proof.
  unfold base.set_iter. rewrite list_elem_of_fmap. split.
  - intros ([k r'] & -> & Hk%elem_of_map_to_list). eauto.
  - intros (k & Hk). exists (k, r). split; [done|].
    by apply elem_of_map_to_list.
Qed.

Lemma elem_of_set_add s r r' :
  r' ∈ base.set_iter (base.set_add s r) ->
  r' ∈ base.set_iter s \/ r' = r.
Proof.
  unfold base.set_add. destruct (s !! base.geometry r) eqn:Hk; [by left|].
  intros (k & [[_ <-]|[_ Hk']]%lookup_insert_Some)%elem_of_set_iter.
  - by right.
  - left. apply elem_of_set_iter. eauto.
Qed.

Lemma elem_of_set_discard s r r' :
  r' ∈ base.set_iter (base.set_discard s r) -> r' ∈ base.set_iter s.
Proof.
  unfold base.set_discard.
  intros (k & [_ Hk]%lookup_delete_Some)%elem_of_set_iter.
  apply elem_of_set_iter. eauto.
Qed.

(** A successful [list.remove] took out the first region equal to the
    argument. *)
Lemma list_remove_split r l l' :
  base.list_remove r l = Ok l' ->
  exists r' l1 l2,
    l = l1 ++ r' :: l2
    /\ base.geometry r' = base.geometry r
    /\ (forall y, y ∈ l1 -> base.geometry y <> base.geometry r)
    /\ l' = l1 ++ l2.
Proof.
  revert l'. induction l as [|y l IH]; intros l'; simpl; [done|].
  destruct (decide (base.geometry y = base.geometry r)) as [Heq|Hne].
  - intros [= <-]. exists y, [], l. repeat split; [done|].
    by intros y' ?%elem_of_nil.
  - destruct (base.list_remove r l) as [l''|e]; simpl; [|done].
    intros [= <-].
    destruct (IH l'' eq_refl) as (r' & l1 & l2 & -> & Hr' & Hl1 & ->).
    exists r', (y :: l1), l2. repeat split; [done|].
    intros y' [->|Hy']%elem_of_cons; [done|]. by apply Hl1.
Qed.



(** The symbol sets cover the symbols of the regions held. *)
Lemma built_covers ws :
  base.built ws ->
  base.chain_symbols (base.set_iter (base.globalRegions ws))
    ⊆ base.globalSymbols ws
  /\ base.chain_symbols (base.localRegions ws) ⊆ base.localSymbols ws.
Proof.
  induction 1 as [gs ls|ws r local _ [IHg IHl]
                 |ws r local update ws' _ [IHg IHl] Hrem].
  - done.
  - destruct local; simpl; (split; [|]); try done.
    + intros a (r' & [Hr'|Hr'%list_elem_of_singleton]%elem_of_app & Ha)
        %elem_of_chain_symbols.
      * apply elem_of_union. left. apply IHl, elem_of_chain_symbols. eauto.
      * subst r'. apply elem_of_union. by right.
    + intros a (r' & [Hr'|Hr']%elem_of_set_add & Ha)%elem_of_chain_symbols.
      * apply elem_of_union. left. apply IHg, elem_of_chain_symbols. eauto.
      * subst r'. apply elem_of_union. by right.
  - unfold base.removeRegion in Hrem. destruct local.
    + destruct (base.list_remove r (base.localRegions ws)) as [locals|]
        eqn:El; simpl in Hrem; [|done].
      injection Hrem as <-. simpl. split; [done|].
      destruct update; [done|]. etrans; [|exact IHl].
      apply chain_symbols_mono. intros y Hy.
      destruct (list_remove_split _ _ _ El) as (r' & l1 & l2 & -> & _ & _ & ->).
      apply elem_of_app in Hy as [Hy|Hy]; apply elem_of_app; [by left|].
      right. by right.
    + injection Hrem as <-. simpl. split; [|done].
      destruct update; [done|]. etrans; [|exact IHg].
      apply chain_symbols_mono. intros y. apply elem_of_set_discard.
Qed.

(** X25: in every workspace that the constructor and the update methods
    produce, the symbols reported at a position are among the symbols
    reported for the whole layer. *)
Theorem built_symbols_declared ws (position : Position) (local : bool) :
  base.built ws ->
  base.getSymbols ws (Some position) local
    ⊆ base.getSymbols ws None local.
Proof.
  intros [Hg Hl]%built_covers. unfold base.getSymbols.
  destruct (base.truthy position); simpl; [|done].
  destruct local.
  - etrans; [|exact Hl]. apply chain_symbols_mono.
    by intros r [_ ?]%list_elem_of_filter.
  - etrans; [|exact Hg]. apply chain_symbols_mono.
    by intros r [_ ?]%list_elem_of_filter.
Qed.

(** X26: after [addRegion], the symbols of the new region are reported at
    every position that the region intersects; on the global layer, when
    the set held no region equal to the new one. *)
Theorem addRegion_getSymbols ws r (position : Position) (local : bool) :
  base.region_intersects r position None = true ->
  (local = false -> base.globalRegions ws !! base.geometry r = None) ->
  base.symbols r
    ⊆ base.getSymbols (base.addRegion ws r local) (Some position) local.
Proof.
  intros Hin Hfresh a Ha. unfold base.getSymbols, base.addRegion.
  destruct (base.truthy position); simpl.
  - apply elem_of_chain_symbols. exists r. split; [|done].
    apply list_elem_of_filter. split; [done|].
    destruct local; simpl.
    + apply elem_of_app. right. by left.
    + apply elem_of_set_iter. exists (base.geometry r).
      unfold base.set_add. rewrite Hfresh by done.
      apply lookup_insert_eq.
  - destruct local; simpl; apply elem_of_union; by right.
Qed.



End WorkspaceProps.

Section RunWorkspace.
Lemma workspace_line_built : base.built example.workspace_line.
Proof. apply base.built_add, base.built_init. Defined.

Lemma built_symbols_declared_witness :
  base.built example.workspace_line
  /\ base.getSymbols example.workspace_line (Some 3) true
       ⊆ base.getSymbols example.workspace_line None true.
Proof.
  split; [exact workspace_line_built|].
  exact (built_symbols_declared example.workspace_line 3 true
           workspace_line_built).
Defined.

Example workspace_line_symbols :
  base.getSymbols example.workspace_line (Some 3) true = {["b"]}
  /\ base.getSymbols example.workspace_line (Some 3) false = {["a"]}
  /\ base.getSymbols example.workspace_line (Some 7) false = ∅
  /\ base.getSymbols example.workspace_line (Some 0) true = {["b"]}
  /\ base.getSymbols example.workspace_line (Some 0) false = {["a"]}.
Proof. vm_compute. done. Qed.

Lemma addRegion_getSymbols_witness :
  base.region_intersects example.room_b 5 None = true
  /\ (false = false ->
      base.globalRegions (base.init (Some [example.room_a]) None)
        !! base.geometry example.room_b = None)
  /\ base.symbols example.room_b
       ⊆ base.getSymbols
           (base.addRegion (base.init (Some [example.room_a]) None)
              example.room_b false)
           (Some 5) false.
Proof.
  assert (Hin : base.region_intersects example.room_b 5 None = true)
    by reflexivity.
  assert (Hfresh : false = false ->
            base.globalRegions (base.init (Some [example.room_a]) None)
              !! base.geometry example.room_b = None)
    by (intros _; reflexivity).
  split; [exact Hin|]. split; [exact Hfresh|].
  exact (addRegion_getSymbols (base.init (Some [example.room_a]) None)
           example.room_b 5 false Hin Hfresh).
Defined.


Example room_c_unseen :
  base.region_intersects example.room_c 2 None = true
  /\ base.getSymbols
       (base.addRegion (base.init (Some [example.room_a]) None)
          example.room_c false) (Some 2) false = {["a"]}
  /\ base.getSymbols
       (base.addRegion (base.init (Some [example.room_a]) None)
          example.room_c false) None false = {["a"; "c"]}.
Proof. vm_compute. done. Qed.



Example remove_absent_local_region :
  base.removeRegion (base.init (Some [example.room_a]) None)
    example.room_b true false = Raise ValueError.
Proof. reflexivity. Qed.
End RunWorkspace.
